(** * Verification of the playback arbiter and the speech-synthesis client

    Shallow embedding of two components of the chat client:
    - [Synthesis]: [TTSService.synthesize] with its validation,
      [requestWithRetry], [isConfigurationError], [handleApiError] and the
      multi-line response assembly (src/unnamed/part_000);
    - [Arbiter]: the [AudioQueueManager] class (src/README.md), as a
      deterministic step function over the manager's fields, the actions
      currently running and the promises handed back to callers;
    - [TTSSetup]: the [TTSService] constructor, [isConfigured] and
      [validateConfig];
    - [PromptLoader]: the prompt loader of prompts.md ([extractCodeBlock],
      [extractConfig], [parseMode], [parseMarkdown], [getPrompt], [reload]);
    - [Chat]: [DoubaoApiService.getModeConfig] and [sendMessage] up to the
      request it sends (src/unnamed/part_000). *)

From Stdlib Require Import String Ascii List ZArith NArith Bool Lia Sorted.
Import ListNotations.
Open Scope string_scope.

(** ** JavaScript values used by both components *)
Module Js.

(** [s.includes(needle)] on strings (byte strings, UTF-8 encoded). *)
Fixpoint includes (s needle : string) : bool :=
  if String.prefix needle s then true
  else match s with
       | EmptyString => false
       | String _ s' => includes s' needle
       end.

(** [toLowerCase] on the ASCII letters. *)
Definition lower_ascii (c : ascii) : ascii :=
  let n := nat_of_ascii c in
  if (65 <=? n)%nat && (n <=? 90)%nat then ascii_of_nat (n + 32) else c.

Fixpoint toLowerCase (s : string) : string :=
  match s with
  | EmptyString => EmptyString
  | String c s' => String (lower_ascii c) (toLowerCase s')
  end.

(** Decimal rendering of numbers, as in a template literal [`${n}`]. *)
Fixpoint digits (fuel : nat) (n : N) (acc : string) : string :=
  match fuel with
  | O => acc
  | S f =>
      let acc' := String (ascii_of_N (48 + N.modulo n 10)) acc in
      if (n <? 10)%N then acc' else digits f (N.div n 10) acc'
  end.

Definition string_of_N (n : N) : string := digits (S (N.size_nat n)) n "".

Definition string_of_Z (z : Z) : string :=
  if (z <? 0)%Z then "-" ++ string_of_N (Z.to_N (- z))
  else string_of_N (Z.to_N z).

Definition string_of_nat (n : nat) : string := string_of_N (N.of_nat n).

(** [a || b] on strings: the empty string is falsy. *)
Definition or_default (s d : string) : string :=
  if String.eqb s "" then d else s.

(** A thrown JavaScript error: its [name] and [message]. *)
Record jserr := mkJsErr { err_name : string; err_message : string }.

(** [new Error(msg)]. *)
Definition Error (msg : string) : jserr := mkJsErr "Error" msg.

(** Synchronous code that may throw. *)
Inductive exc (A : Type) : Type :=
| Ok (a : A)
| Throw (e : jserr).
Arguments Ok {A} a.
Arguments Throw {A} e.

Definition bind {A B} (m : exc A) (k : A -> exc B) : exc B :=
  match m with
  | Ok a => k a
  | Throw e => Throw e
  end.

(** [try { m } catch (e) { h(e) }]. *)
Definition catch {A} (m : exc A) (h : jserr -> exc A) : exc A :=
  match m with
  | Ok a => Ok a
  | Throw e => h e
  end.

(** How a promise settles. *)
Inductive settled (A : Type) : Type :=
| Resolved (a : A)
| Rejected (e : jserr).
Arguments Resolved {A} a.
Arguments Rejected {A} e.

End Js.

Import Js.
Notation "x <- m ;; k" := (bind m (fun x => k))
  (at level 61, m at next level, right associativity).

(** ** The synthesis client ([TTSService]) *)
Module Synthesis.

(** [TTSConfig]: filled from the environment, missing values are [""]. *)
Record TTSConfig := mkConfig {
  appId : string; accessKey : string; apiUrl : string; resourceId : string }.

(** [TTSRequest]. The text is a JavaScript string: a list of UTF-16 code
    units, so that [length] is [text.length]. [audioParams] and [user] only
    feed [buildRequestBody], which cannot fail and does not influence the
    outcome, so they are left out. *)
Record TTSRequest := mkRequest { text : list Z; speaker : string }.

(** [TTSResponse]: [{success: true, data: {audio, timestamp}}] or
    [{success: false, error}]. *)
Inductive TTSResponse :=
| Success (audio : string) (timestamp : Z)
| Failure (error : string).

Definition retryCount : nat := 3.
Definition retryDelay : Z := 1000.
Definition requestTimeout : Z := 30000.

(** [validateConfig]: [!!(appId && accessKey)]. *)
Definition validateConfig (cfg : TTSConfig) : bool :=
  negb (String.eqb (appId cfg) "") && negb (String.eqb (accessKey cfg) "").

(** White space and line terminators stripped by [String.prototype.trim]. *)
Definition is_js_ws (c : Z) : bool :=
  existsb (Z.eqb c) [9; 10; 11; 12; 13; 32; 160; 5760; 8232; 8233; 8239;
                     8287; 12288; 65279]%Z
  || ((8192 <=? c) && (c <=? 8202))%Z.

Fixpoint drop_ws (t : list Z) : list Z :=
  match t with
  | [] => []
  | c :: t' => if is_js_ws c then drop_ws t' else t
  end.

Definition trim (t : list Z) : list Z := rev (drop_ws (rev (drop_ws t))).

(** One parsed line of the response body. [JSON.parse] is external: a line
    either fails to parse, with the parser's error message, or yields an
    object whose [code], [message] and [data] are read. [data] is [Some d]
    when it is a string and [None] when it is absent or [null]. *)
Record fragment := mkFragment { code : Z; message : string; data : option string }.

Inductive line :=
| Blank
| Unparsable (parse_error : string)
| Parsed (f : fragment).

(** The response text, split on ['\n']. [whole_parse_error] is the message
    of [JSON.parse(responseText.trim())] when the body has two or more
    non-blank lines (two JSON texts separated by a newline never parse). *)
Record body := mkBody { body_lines : list line; whole_parse_error : string }.

Record response := mkResponse {
  status : Z; statusText : string; resp_body : body }.

(** [response.ok]. *)
Definition ok (r : response) : bool := ((200 <=? status r) && (status r <=? 299))%Z.

(** What [fetch] does at one attempt: answers, or rejects (network failure,
    or [AbortError] when the 30 s timeout controller fires). *)
Inductive fetch_outcome :=
| Responded (r : response)
| FetchRejected (e : jserr).

(** The network: the outcome of each attempt, numbered from 1. *)
Definition network := nat -> fetch_outcome.

(** Observable transport activity. *)
Inductive event :=
| Fetch (attempt : nat)
| Delay (ms : Z).

(** [isConfigurationError]. *)
Definition isConfigurationError (e : jserr) : bool :=
  let m := toLowerCase (err_message e) in
  includes m "401" || includes m "403" || includes m "invalid"
  || includes m "unauthorized".

(** [handleApiError]. *)
Definition handleApiError (e : jserr) : string :=
  if String.eqb (err_name e) "AbortError" then "请求超时，请检查网络连接"
  else
    let m := err_message e in
    if includes m "401" then "API认证失败，请检查访问密钥配置"
    else if includes m "403" then "API权限不足，请检查账户权限"
    else if includes m "429" then "API调用频率过高，请稍后再试"
    else if includes m "500" then "服务器内部错误，请稍后再试"
    else if includes m "network" || includes m "fetch" then "网络连接失败，请检查网络设置"
    else or_default m "语音合成服务暂时不可用".

(** One attempt of [requestWithRetry]: [fetch], then [!response.ok] throws. *)
Definition attempt_once (net : network) (attempt : nat) : exc response :=
  match net attempt with
  | Responded r =>
      if ok r then Ok r
      else Throw (Error ("HTTP " ++ string_of_Z (status r) ++ ": " ++ statusText r))
  | FetchRejected e => Throw e
  end.

(** [requestWithRetry(url, options, attempt)]. The recursion is bounded by
    [attempt < retryCount]; [fuel] makes that bound structural. *)
Fixpoint requestWithRetry_go (fuel : nat) (net : network) (attempt : nat)
  : exc response * list event :=
  match attempt_once net attempt with
  | Ok r => (Ok r, [Fetch attempt])
  | Throw e =>
      if (attempt <? retryCount)%nat && negb (isConfigurationError e) then
        match fuel with
        | S f =>
            let '(res, tr) := requestWithRetry_go f net (S attempt) in
            (res, Fetch attempt :: Delay retryDelay :: tr)
        | O => (Throw e, [Fetch attempt])
        end
      else (Throw e, [Fetch attempt])
  end.

Definition requestWithRetry (net : network) : exc response * list event :=
  requestWithRetry_go retryCount net 1.

Definition is_blank (l : line) : bool :=
  match l with Blank => true | _ => false end.

(** [code === 0 || code === 20000000]. *)
Definition success_code (c : Z) : bool := (c =? 0)%Z || (c =? 20000000)%Z.

Definition api_error_message (f : fragment) : string :=
  "API返回错误: " ++ or_default (message f) "未知错误"
  ++ " (状态码: " ++ string_of_Z (code f) ++ ")".

Definition msg_not_configured : string :=
  "TTS配置不完整，请检查环境变量中的APP_ID和ACCESS_KEY".
Definition msg_empty_text : string := "文本内容不能为空".
Definition msg_text_too_long : string := "文本长度不能超过1000个字符".
Definition msg_empty_single : string :=
  "TTS合成失败：API返回的音频数据为空，可能是音色不支持或参数配置问题".

(** [JSON.parse(line)]. A blank line never reaches it (blank lines are
    filtered out); on one it throws as [JSON.parse("")] does. *)
Definition parse_line (l : line) : exc fragment :=
  match l with
  | Blank => Throw (mkJsErr "SyntaxError" "Unexpected end of JSON input")
  | Unparsable pe => Throw (mkJsErr "SyntaxError" pe)
  | Parsed f => Ok f
  end.

(** The [try] block of one iteration of the line loop: parse, reject a
    negative non-success code, collect a non-empty string [data]. *)
Definition line_body (l : line) (parts : list string)
  : exc (list string * fragment) :=
  f <- parse_line l ;;
  if negb (success_code (code f)) && (code f <? 0)%Z
  then Throw (Error (api_error_message f))
  else Ok (match data f with
           | Some d => if String.eqb d "" then parts else app parts [d]
           | None => parts
           end, f).

(** The loop [for (let i = 0; i < lines.length; i++)], with its [catch]
    rethrowing as a parse failure of line [i + 1]. Returns the collected
    [audioDataParts] and [finalResult]. *)
Fixpoint collect (i : nat) (ls : list line) (parts : list string)
  (final : option fragment) : exc (list string * option fragment) :=
  match ls with
  | [] => Ok (parts, final)
  | l :: ls' =>
      r <- catch (line_body l parts)
             (fun e => Throw (Error ("第" ++ string_of_nat (S i)
                                     ++ "行JSON解析失败: " ++ err_message e))) ;;
      collect (S i) ls' (fst r) (Some (snd r))
  end.

Definition nonblank_lines (b : body) : list line :=
  filter (fun l => negb (is_blank l)) (body_lines b).

(** [JSON.parse(responseText.trim())]: with a single non-blank line the
    trimmed text is that line. *)
Definition whole_parse (b : body) : exc fragment :=
  match nonblank_lines b with
  | [l] => parse_line l
  | _ => Throw (mkJsErr "SyntaxError" (whole_parse_error b))
  end.

(** The single-object fallback, taken when no line carried audio data. *)
Definition single_object (b : body) (now : Z) : exc TTSResponse :=
  catch
    (result <- whole_parse b ;;
     if negb (success_code (code result))
     then Throw (Error (api_error_message result))
     else match data result with
          | Some d => if String.eqb d "" then Throw (Error msg_empty_single)
                      else Ok (Success d now)
          | None => Throw (Error msg_empty_single)
          end)
    (fun e => Throw (Error ("API返回的不是有效的JSON格式: " ++ err_message e))).

(** Everything [synthesize] does with [responseText]. [now] is [Date.now()]. *)
Definition processBody (b : body) (now : Z) : exc TTSResponse :=
  if forallb is_blank (body_lines b) then Throw (Error "API返回空响应")
  else
    r <- collect 0 (nonblank_lines b) [] None ;;
    let '(parts, final) := r in
    match parts with
    | [] => single_object b now
    | _ =>
        let combined := String.concat "" parts in
        (* [{...finalResult, data: combined}]; [result.code && ...] *)
        _ <- match final with
             | Some f =>
                 if negb (Z.eqb (code f) 0) && negb (success_code (code f))
                 then Throw (Error (or_default (message f) "语音合成失败"))
                 else Ok tt
             | None => Ok tt
             end ;;
        if String.eqb combined "" then Throw (Error "API返回的音频数据为空")
        else Ok (Success combined now)
    end.

(** [!request.text || request.text.trim().length === 0]. *)
Definition blank_text (t : list Z) : bool :=
  match t with
  | [] => true
  | _ => Nat.eqb (length (trim t)) 0
  end.

(** [synthesize(request)]: how the returned promise settles, and the
    transport activity it caused. *)
Definition synthesize (cfg : TTSConfig) (req : TTSRequest) (net : network)
  (now : Z) : settled TTSResponse * list event :=
  if negb (validateConfig cfg) then (Resolved (Failure msg_not_configured), [])
  else if blank_text (text req) then (Resolved (Failure msg_empty_text), [])
  else if (1000 <? length (text req))%nat
  then (Resolved (Failure msg_text_too_long), [])
  else
    let '(res, tr) := requestWithRetry net in
    let outcome :=
      catch
        (resp <- res ;;
         if negb (ok resp)
         then Throw (Error ("API请求失败: " ++ string_of_Z (status resp)
                            ++ " " ++ statusText resp))
         else processBody (resp_body resp) now)
        (fun e => Ok (Failure (handleApiError e))) in
    match outcome with
    | Ok v => (Resolved v, tr)
    | Throw e => (Rejected e, tr)
    end.

End Synthesis.

(** ** The playback arbiter ([AudioQueueManager]) *)
Module Arbiter.

(** Which branch of [requestPlay] took the call. *)
Inductive path := Immediate | Queued.

(** The life of the [playFn] passed to one call. *)
Inductive action_state := Waiting | Running | Finished.

(** The promise [requestPlay] returned to its caller. *)
Inductive call_status := Pending | Done | Failed (e : jserr).

(** One [requestPlay] call; calls are numbered in order (the handle). *)
Record call := mkCall {
  c_id : string; c_path : path; c_state : action_state; c_status : call_status }.

(** Observable effects: the [audioQueueStop] event of [stopCurrent], and
    the start and settling of a call's [playFn]. *)
Inductive obs :=
| StopEvent (id : string)
| Start (h : nat) (id : string)
| Settle (h : nat).

(** The fields of the manager ([currentPlayingId], [playQueue] with each
    entry's [playFn] named by its call, [isProcessing]), the calls made so
    far and the log of observable effects. *)
Record sys := mkSys {
  currentPlayingId : option string;
  playQueue : list (string * nat);
  isProcessing : bool;
  calls : list call;
  log : list obs }.

Definition init : sys := mkSys None [] false [] [].

(** What the program can do next: a [requestPlay] call, the settling of a
    running [playFn] (fulfilled, or rejected with an error), and calls of
    [stopCurrent], [onPlayEnded] and [clearQueue]. *)
Inductive input :=
| RequestPlay (id : string)
| ActionSettles (h : nat) (outcome : option jserr)
| StopCurrent
| OnPlayEnded (id : string)
| ClearQueue.

Definition with_current (c : option string) (s : sys) : sys :=
  mkSys c (playQueue s) (isProcessing s) (calls s) (log s).
Definition with_queue (q : list (string * nat)) (s : sys) : sys :=
  mkSys (currentPlayingId s) q (isProcessing s) (calls s) (log s).
Definition with_processing (b : bool) (s : sys) : sys :=
  mkSys (currentPlayingId s) (playQueue s) b (calls s) (log s).
Definition with_calls (cs : list call) (s : sys) : sys :=
  mkSys (currentPlayingId s) (playQueue s) (isProcessing s) cs (log s).
Definition emit (o : obs) (s : sys) : sys :=
  mkSys (currentPlayingId s) (playQueue s) (isProcessing s) (calls s) (log s ++ [o]).

Fixpoint set_nth {A} (n : nat) (x : A) (l : list A) : list A :=
  match l, n with
  | [], _ => []
  | _ :: t, O => x :: t
  | y :: t, S n' => y :: set_nth n' x t
  end.

Definition update_call (h : nat) (f : call -> call) (s : sys) : sys :=
  match nth_error (calls s) h with
  | Some c => with_calls (set_nth h (f c) (calls s)) s
  | None => s
  end.

Definition mark_running (c : call) : call :=
  mkCall (c_id c) (c_path c) Running (c_status c).
Definition finish (st : call_status) (c : call) : call :=
  mkCall (c_id c) (c_path c) Finished st.

(** JavaScript truthiness of [currentPlayingId]: [null] and [""] are falsy. *)
Definition truthy (o : option string) : bool :=
  match o with
  | Some c => negb (String.eqb c "")
  | None => false
  end.

(** [this.currentPlayingId === id]. *)
Definition is_current (id : string) (s : sys) : bool :=
  match currentPlayingId s with
  | Some c => String.eqb c id
  | None => false
  end.

(** [stopCurrent()]. *)
Definition stopCurrent (s : sys) : sys :=
  match currentPlayingId s with
  | Some c => if truthy (Some c) then with_current None (emit (StopEvent c) s) else s
  | None => s
  end.

(** One turn of the [while] loop of [processQueue], up to its [await]:
    dequeue the head and start its [playFn], or leave the loop. *)
Definition drain_next (s : sys) : sys :=
  match playQueue s with
  | (id, h) :: q =>
      if negb (truthy (currentPlayingId s))
      then emit (Start h id)
             (update_call h mark_running (with_current (Some id) (with_queue q s)))
      else with_processing false s
  | [] => with_processing false s
  end.

(** [processQueue()], up to its first [await]. *)
Definition processQueue (s : sys) : sys :=
  if isProcessing s || (match playQueue s with [] => true | _ => false end)
     || truthy (currentPlayingId s)
  then s
  else drain_next (with_processing true s).

(** [requestPlay(id, playFn)], up to its first [await]. *)
Definition requestPlay (id : string) (s : sys) : sys :=
  let h := length (calls s) in
  let play_now s' :=
    emit (Start h id)
      (with_calls (calls s' ++ [mkCall id Immediate Running Pending])
         (with_current (Some id) s')) in
  if negb (truthy (currentPlayingId s)) then play_now s
  else if is_current id s then play_now (stopCurrent s)
  else with_calls (calls s ++ [mkCall id Queued Waiting Pending])
         (with_queue (playQueue s ++ [(id, h)]) s).

(** The [playFn] of call [h] settles ([None]: fulfilled, [Some e]: rejected
    with [e]); the code suspended on it resumes. On the immediate path the
    [finally] clears [currentPlayingId] and calls [processQueue], then the
    caller's promise settles as [playFn] did. On the queued path the
    wrapper resolves the caller in both cases, then the [finally] of the
    drain loop clears [currentPlayingId] and the loop goes on. *)
Definition actionSettles (h : nat) (outcome : option jserr) (s : sys) : sys :=
  match nth_error (calls s) h with
  | Some c =>
      match c_state c with
      | Running =>
          let s1 := emit (Settle h) s in
          match c_path c with
          | Immediate =>
              let st := match outcome with None => Done | Some e => Failed e end in
              processQueue (with_current None (update_call h (finish st) s1))
          | Queued =>
              drain_next (with_current None (update_call h (finish Done) s1))
          end
      | _ => s
      end
  | None => s
  end.

(** [onPlayEnded(id)]. *)
Definition onPlayEnded (id : string) (s : sys) : sys :=
  if is_current id s then processQueue (with_current None s) else s.

(** [clearQueue()]. *)
Definition clearQueue (s : sys) : sys := with_queue [] s.

Definition getCurrentPlayingId (s : sys) : option string := currentPlayingId s.
Definition isPlaying (id : string) (s : sys) : bool := is_current id s.
Definition getQueueLength (s : sys) : nat := length (playQueue s).

Definition step (s : sys) (i : input) : sys :=
  match i with
  | RequestPlay id => requestPlay id s
  | ActionSettles h o => actionSettles h o s
  | StopCurrent => stopCurrent s
  | OnPlayEnded id => onPlayEnded id s
  | ClearQueue => clearQueue s
  end.

Definition run (s : sys) (evs : list input) : sys := fold_left step evs s.

(** The [playFn]s running (started and not yet settled). *)
Definition is_running (c : call) : bool :=
  match c_state c with Running => true | _ => false end.
Definition running (s : sys) : list call := filter is_running (calls s).

(** Dequeued [playFn]s running. *)
Definition is_drained_running (c : call) : bool :=
  is_running c && match c_path c with Queued => true | Immediate => false end.
Definition drained_running (s : sys) : nat := length (filter is_drained_running (calls s)).

End Arbiter.

(** ** Construction of the synthesis client ([TTSService]) *)
Module TTSSetup.
Import Synthesis.

(** A variable of [import.meta.env]: [None] when it is not set. *)
Definition env_or (v : option string) (d : string) : string :=
  match v with
  | Some s => or_default s d
  | None => d
  end.

Record tts_env := mkTTSEnv {
  VITE_TTS_APP_ID : option string;
  VITE_TTS_ACCESS_KEY : option string;
  VITE_TTS_API_URL : option string;
  VITE_TTS_RESOURCE_ID : option string }.

(** The constructor of [TTSService]. *)
Definition loadConfig (env : tts_env) : TTSConfig :=
  mkConfig (env_or (VITE_TTS_APP_ID env) "")
           (env_or (VITE_TTS_ACCESS_KEY env) "")
           (env_or (VITE_TTS_API_URL env) "https://openspeech.bytedance.com/api/v1/tts")
           (env_or (VITE_TTS_RESOURCE_ID env) "volc.tts.zh_cn").

(** [isConfigured]: [!!(appId && accessKey && apiUrl)]. *)
Definition isConfigured (cfg : TTSConfig) : bool :=
  negb (String.eqb (appId cfg) "") && negb (String.eqb (accessKey cfg) "")
  && negb (String.eqb (apiUrl cfg) "").

End TTSSetup.

(** ** The prompt loader ([PromptLoader]) *)
Module PromptLoader.

(** The markdown text and everything cut out of it are JavaScript strings:
    lists of UTF-16 code units, as for the synthesis text. [units] writes an
    ASCII literal in that form. *)
Fixpoint units (s : string) : list Z :=
  match s with
  | EmptyString => []
  | String c s' => Z.of_nat (nat_of_ascii c) :: units s'
  end.

(** [a === b] on such strings. *)
Definition eqs (a b : list Z) : bool :=
  if list_eq_dec Z.eq_dec a b then true else false.

(** [s] starts with [p]. *)
Fixpoint starts_with (p s : list Z) : bool :=
  match p, s with
  | [], _ => true
  | a :: p', b :: s' => Z.eqb a b && starts_with p' s'
  | _ :: _, [] => false
  end.

(** The first position [k], counting from [k0] at the head of [s], where
    [needle] occurs. *)
Fixpoint find_from (needle s : list Z) (k : nat) : option nat :=
  if starts_with needle s then Some k
  else match s with
       | [] => None
       | _ :: s' => find_from needle s' (S k)
       end.

(** [s.indexOf(needle, position)]. *)
Definition indexOf (s needle : list Z) (position : Z) : Z :=
  let from := Z.to_nat (Z.max 0 (Z.min position (Z.of_nat (length s)))) in
  match find_from needle (skipn from s) from with
  | Some k => Z.of_nat k
  | None => -1
  end.

(** [s.substring(a, b)]: both ends clamped to [0, s.length], swapped when
    [a > b]. *)
Definition substring (s : list Z) (a b : Z) : list Z :=
  let len := Z.of_nat (length s) in
  let a' := Z.max 0 (Z.min a len) in
  let b' := Z.max 0 (Z.min b len) in
  let lo := Z.to_nat (Z.min a' b') in
  let hi := Z.to_nat (Z.max a' b') in
  firstn (hi - lo) (skipn lo s).

(** [s.split(sep)] for a one-unit separator. *)
Fixpoint split_on (sep : Z) (s : list Z) : list (list Z) :=
  match s with
  | [] => [[]]
  | c :: s' =>
      if Z.eqb c sep then [] :: split_on sep s'
      else match split_on sep s' with
           | l :: ls => (c :: l) :: ls
           | [] => [[c]]
           end
  end.

(** [ls.join(sep)]. *)
Fixpoint join (sep : list Z) (ls : list (list Z)) : list Z :=
  match ls with
  | [] => []
  | [l] => l
  | l :: ls' => (l ++ sep ++ join sep ls')%list
  end.

Definition newline : Z := 10.
Definition fence : list Z := units "```".

(** The loop of [extractCodeBlock] over [content.split('\n')], with
    [inCodeBlock], [foundMarker] and [result]. A marker line directly
    followed by a fence line opens the block and the fence line is skipped
    ([i++; continue]); in the block a fence line ends the loop ([break]). *)
Fixpoint ecb_loop (startMarker : list Z) (lines : list (list Z))
  (inCodeBlock foundMarker : bool) (result : list (list Z)) : list (list Z) :=
  match lines with
  | [] => result
  | line :: rest =>
      let hit := eqs (Synthesis.trim line) startMarker && negb foundMarker in
      let foundMarker' := foundMarker || hit in
      let skip := hit && match rest with
                         | next :: _ => eqs (Synthesis.trim next) fence
                         | [] => false
                         end in
      if skip then
        match rest with
        | _ :: rest' => ecb_loop startMarker rest' true foundMarker' result
        | [] => result
        end
      else if inCodeBlock then
        if eqs (Synthesis.trim line) fence then result
        else ecb_loop startMarker rest inCodeBlock foundMarker' (app result [line])
      else ecb_loop startMarker rest inCodeBlock foundMarker' result
  end.

(** [extractCodeBlock(content, startMarker)]. *)
Definition extractCodeBlock (content startMarker : list Z) : list Z :=
  Synthesis.trim (join [newline] (ecb_loop startMarker (split_on newline content)
                                    false false [])).

(** The run of [[^`]] characters at the head of [s], and what follows. *)
Fixpoint span_not_tick (s : list Z) : list Z * list Z :=
  match s with
  | [] => ([], [])
  | c :: s' =>
      if Z.eqb c 96 then ([], s)
      else let '(v, r) := span_not_tick s' in (c :: v, r)
  end.

(** The regular expression [-\s*\*\*NAME\*\*:\s*`([^`]+)`] tried at the
    head of [s], giving the capture group. [\s] is the set stripped by
    [trim] ([Synthesis.is_js_ws]); each [\s*] is followed by a non-space
    character and [[^`]+] by a backquote, so the greedy runs never
    backtrack. The [i] flag has no effect: the two names used, 温度参数 and
    推理强度, have no case, nor has any other character of the pattern. *)
Definition match_at (configName s : list Z) : option (list Z) :=
  match s with
  | c :: s1 =>
      if Z.eqb c 45 then
        let s2 := Synthesis.drop_ws s1 in
        let lit := (units "**" ++ configName ++ units "**:")%list in
        if starts_with lit s2 then
          match Synthesis.drop_ws (skipn (length lit) s2) with
          | t :: s4 =>
              if Z.eqb t 96 then
                match span_not_tick s4 with
                | ((_ :: _) as v, t' :: _) => if Z.eqb t' 96 then Some v else None
                | _ => None
                end
              else None
          | [] => None
          end
        else None
      else None
  | [] => None
  end.

(** [content.match(regex)]: the leftmost match. *)
Fixpoint search (configName s : list Z) : option (list Z) :=
  match match_at configName s with
  | Some v => Some v
  | None => match s with
            | [] => None
            | _ :: s' => search configName s'
            end
  end.

(** [extractConfig(content, configName)]. *)
Definition extractConfig (content configName : list Z) : list Z :=
  match search configName content with
  | Some v => v
  | None => []
  end.

(** A [number]: a literal of the source, or the result of [parseFloat],
    which is left uninterpreted. *)
Inductive jsnum :=
| NumLit (literal : string)
| ParseFloat (arg : list Z).

(** [PromptConfig]. *)
Record PromptConfig := mkPrompt {
  id : string; name : string; temperature : jsnum;
  reasoningEffort : list Z; systemPrompt : list Z }.

(** 温度参数, 推理强度 and ### 系统提示词. *)
Definition temperature_key : list Z := [28201; 24230; 21442; 25968]%Z.
Definition effort_key : list Z := [25512; 29702; 24378; 24230]%Z.
Definition prompt_marker : list Z :=
  [35; 35; 35; 32; 31995; 32479; 25552; 31034; 35789]%Z.

(** [parseMode(content, modeId, modeName)]; nothing in its [try] block
    throws. *)
Definition parseMode (content : list Z) (modeId modeName : string)
  : option PromptConfig :=
  let tempStr := extractConfig content temperature_key in
  let temperature := if eqs tempStr [] then NumLit "0.7" else ParseFloat tempStr in
  let reasoningStr := extractConfig content effort_key in
  let reasoningEffort := if eqs reasoningStr [] then units "medium" else reasoningStr in
  let systemPrompt := extractCodeBlock content prompt_marker in
  if eqs systemPrompt [] then None
  else Some (mkPrompt modeId modeName temperature reasoningEffort
               (Synthesis.trim systemPrompt)).

(** A JavaScript object with string keys, in insertion order. *)
Fixpoint set_key {A} (k : string) (v : A) (o : list (string * A)) : list (string * A) :=
  match o with
  | [] => [(k, v)]
  | (k', v') :: o' =>
      if String.eqb k k' then (k, v) :: o' else (k', v') :: set_key k v o'
  end.

(** [o[k]] for a key of the object itself; the callers only ask for
    "chat", "mutual" and "mood", none of which is a property of
    [Object.prototype]. *)
Fixpoint get_key {A} (k : string) (o : list (string * A)) : option A :=
  match o with
  | [] => None
  | (k', v) :: o' => if String.eqb k k' then Some v else get_key k o'
  end.

(** The fields of the loader. *)
Record loader := mkLoader {
  prompts : list (string * PromptConfig);
  isLoaded : bool;
  markdownContent : list Z }.

Definition fresh : loader := mkLoader [] false [].

(** The template literals of [loadFallbackPrompts], whose content no
    property depends on. *)
Record fallback_texts := mkFallbackTexts {
  fallback_chat : list Z; fallback_mutual : list Z; fallback_mood : list Z }.

(** [loadFallbackPrompts()]. *)
Definition loadFallbackPrompts (tx : fallback_texts) (st : loader) : loader :=
  mkLoader
    [("chat", mkPrompt "chat" "受气包模式" (NumLit "0.7") (units "medium") (fallback_chat tx));
     ("mutual", mkPrompt "mutual" "抬杠模式" (NumLit "0.8") (units "medium") (fallback_mutual tx));
     ("mood", mkPrompt "mood" "疗愈模式" (NumLit "0.6") (units "high") (fallback_mood tx))]
    true (markdownContent st).

(** The [modes] array of [parseMarkdown]: id, name and the heading marker
    ## 受气包模式 (chat), ## 互相伤害模式 (mutual), ## 疗愈模式 (mood). *)
Definition modes : list (string * string * list Z) :=
  [("chat", "受气包模式",
    [35; 35; 32; 21463; 27668; 21253; 27169; 24335; 32; 40; 99; 104; 97; 116; 41]%Z);
   ("mutual", "互相伤害模式",
    [35; 35; 32; 20114; 30456; 20260; 23475; 27169; 24335; 32; 40; 109; 117; 116;
     117; 97; 108; 41]%Z);
   ("mood", "疗愈模式",
    [35; 35; 32; 30103; 24840; 27169; 24335; 32; 40; 109; 111; 111; 100; 41]%Z)].

Definition heading : list Z := units "## ".

(** The section of [content] that belongs to the mode with heading
    [marker]: from the heading to the next ['## '] after it, or to the end. *)
Definition mode_section (content marker : list Z) : option (list Z) :=
  let startIndex := indexOf content marker 0 in
  if Z.eqb startIndex (-1) then None
  else
    let nextModeIndex := indexOf content heading (startIndex + Z.of_nat (length marker)) in
    let endIndex := if Z.eqb nextModeIndex (-1) then Z.of_nat (length content)
                    else nextModeIndex in
    Some (substring content startIndex endIndex).

(** One iteration of [for (const mode of modes)]. *)
Definition load_mode (content : list Z) (ps : list (string * PromptConfig))
  (mode : string * string * list Z) : list (string * PromptConfig) :=
  let '(mid, mname, marker) := mode in
  match mode_section content marker with
  | None => ps
  | Some modeContent =>
      match parseMode modeContent mid mname with
      | Some config => set_key mid config ps
      | None => ps
      end
  end.

(** [parseMarkdown()]. [file] is what [loadMarkdownContent] yields: the
    text of prompts.md, or [''] when the fetch fails or is not OK. Nothing
    in its [try] block throws, so its [catch] is not modelled. *)
Definition parseMarkdown (tx : fallback_texts) (file : list Z) (st : loader) : loader :=
  let content := if eqs (markdownContent st) [] then file else markdownContent st in
  let st := mkLoader (prompts st) (isLoaded st) content in
  if eqs content [] then loadFallbackPrompts tx st
  else mkLoader (fold_left (load_mode content) modes (prompts st)) true content.

(** [init()]. *)
Definition init (tx : fallback_texts) (file : list Z) (st : loader) : loader :=
  if isLoaded st then st else parseMarkdown tx file st.

(** [getPrompt(mode)]: the loader after [init], and the answer. *)
Definition getPrompt (tx : fallback_texts) (file : list Z) (st : loader) (mode : string)
  : loader * option PromptConfig :=
  let st' := init tx file st in (st', get_key mode (prompts st')).

(** [reload()]. *)
Definition reload (tx : fallback_texts) (file : list Z) (st : loader) : loader :=
  parseMarkdown tx file (mkLoader [] false []).

(** [getStats()]: [totalModes] and [loadedModes]. *)
Definition getStats (st : loader) : nat * list string :=
  (length (prompts st), map fst (prompts st)).

End PromptLoader.

(** ** The chat client ([DoubaoApiService]) *)
Module Chat.
Import PromptLoader.

Inductive EmotionMode := chat | mutual | mood.

Definition mode_key (m : EmotionMode) : string :=
  match m with chat => "chat" | mutual => "mutual" | mood => "mood" end.






Record chat_env := mkChatEnv {
  VITE_ARK_API_KEY : option string;
  VITE_ARK_API_URL : option string;
  VITE_ARK_MODEL : option string }.

Definition truthy_env (v : option string) : bool :=
  match v with Some s => negb (String.eqb s "") | None => false end.

(** [isConfigured()]. *)
Definition isConfigured (env : chat_env) : bool :=
  truthy_env (VITE_ARK_API_KEY env)
  && negb (match VITE_ARK_API_KEY env with
           | Some k => String.eqb k "your_ark_api_key_here"
           | None => false
           end)
  && truthy_env (VITE_ARK_API_URL env) && truthy_env (VITE_ARK_MODEL env).






End Chat.

(** * Properties of the synthesis client *)
Section SynthesisProofs.
Import Synthesis.

(** Sample inputs. *)
Definition cfg_ok : TTSConfig :=
  mkConfig "app" "key" "https://openspeech.bytedance.com/api/v1/tts" "volc.tts.zh_cn".
Definition cfg_missing : TTSConfig :=
  mkConfig "" "key" "https://openspeech.bytedance.com/api/v1/tts" "volc.tts.zh_cn".
Definition req_hi : TTSRequest := mkRequest [104; 105]%Z "zh_female".
Definition answer (b : body) : network :=
  fun _ => Responded (mkResponse 200 "OK" b).
Definition offline : network :=
  fun _ => FetchRejected (mkJsErr "TypeError" "Failed to fetch").

(** The audio chunks the line loop collects, in line order. *)
Definition chunks (fs : list fragment) : list string :=
  flat_map (fun f => match data f with
                     | Some d => if String.eqb d "" then [] else [d]
                     | None => []
                     end) fs.

Fixpoint last_frag (final : option fragment) (fs : list fragment) : option fragment :=
  match fs with
  | [] => final
  | f :: fs' => last_frag (Some f) fs'
  end.

Lemma collect_parsed (fs : list fragment) : forall i parts final,
  Forall (fun f => (0 <= code f)%Z) fs ->
  collect i (map Parsed fs) parts final
  = Ok (app parts (chunks fs), last_frag final fs).
Proof.
  induction fs as [|f fs IH]; intros i parts final Hc.
  - simpl. rewrite app_nil_r. reflexivity.
  - inversion Hc as [|? ? Hf Hfs]; subst. simpl.
    unfold line_body; simpl.
    replace ((code f <? 0)%Z) with false by (symmetry; apply Z.ltb_ge; lia).
    rewrite andb_false_r. simpl.
    rewrite IH by assumption. f_equal. f_equal.
    destruct (data f) as [d|]; [destruct (String.eqb d "")|]; simpl;
      rewrite ?app_nil_r, <- ?app_assoc; reflexivity.
Qed.

Lemma last_frag_last (fs : list fragment) : forall final d,
  fs <> [] -> last_frag final fs = Some (last fs d).
Proof.
  induction fs as [|f fs IH]; intros final d Hne; [congruence|].
  destruct fs as [|g fs]; [reflexivity|].
  transitivity (last_frag (Some f) (g :: fs)); [reflexivity|].
  rewrite (IH (Some f) d) by discriminate. reflexivity.
Qed.

Lemma concat_nonempty (parts : list string) :
  Forall (fun p => p <> "") parts -> parts <> [] -> String.concat "" parts <> "".
Proof.
  destruct parts as [|p ps]; intros Hf Hne; [congruence|].
  inversion Hf; subst. destruct ps; simpl.
  - assumption.
  - destruct p; [congruence|discriminate].
Qed.

Lemma chunks_nonempty (fs : list fragment) : Forall (fun p => p <> "") (chunks fs).
Proof.
  induction fs as [|f fs IH]; simpl; [constructor|].
  apply Forall_app; split; [|assumption].
  destruct (data f) as [d|]; [|constructor].
  destruct (String.eqb d "") eqn:E; [constructor|].
  constructor; [|constructor]. intro Hd; subst. discriminate.
Qed.

Lemma nonblank_forallb (b : body) :
  nonblank_lines b <> [] -> forallb is_blank (body_lines b) = false.
Proof.
  unfold nonblank_lines. destruct b as [ls w]; simpl.
  induction ls as [|l ls IH]; simpl; [congruence|].
  destruct l; simpl; auto.
Qed.

Lemma requestWithRetry_first_ok (net : network) (r : response) :
  net 1%nat = Responded r -> ok r = true -> requestWithRetry net = (Ok r, [Fetch 1]).
Proof.
  intros Hn Hok. unfold requestWithRetry, retryCount; cbn [requestWithRetry_go].
  unfold attempt_once. rewrite Hn, Hok. reflexivity.
Qed.

Lemma collect_app (l1 : list line) : forall l2 i parts final,
  collect i (l1 ++ l2)%list parts final
  = r <- collect i l1 parts final ;; collect (i + length l1) l2 (fst r) (snd r).
Proof.
  induction l1 as [|l l1 IH]; intros l2 i parts final.
  - simpl. rewrite Nat.add_0_r. reflexivity.
  - simpl. destruct (catch (line_body l parts) _) as [[p f]|e]; simpl; [|reflexivity].
    rewrite IH. replace (S i + length l1)%nat with (i + S (length l1))%nat by lia.
    reflexivity.
Qed.

Lemma line_body_nonneg (f : fragment) (parts : list string) :
  (0 <= code f)%Z ->
  line_body (Parsed f) parts
  = Ok (match data f with
        | Some d => if String.eqb d "" then parts else app parts [d]
        | None => parts
        end, f).
Proof.
  intros Hc. unfold line_body; simpl.
  replace ((code f <? 0)%Z) with false by (symmetry; apply Z.ltb_ge; lia).
  rewrite andb_false_r. reflexivity.
Qed.

Lemma whole_parse_many (b : body) (l1 l2 : list line) (x y : line) :
  nonblank_lines b = (l1 ++ x :: y :: l2)%list ->
  whole_parse b = Throw (mkJsErr "SyntaxError" (whole_parse_error b)).
Proof.
  intros H. unfold whole_parse. rewrite H. destruct l1 as [|? [|]]; reflexivity.
Qed.

Lemma nonblank_lines_app (pre post : list line) (f : fragment) (w : string) :
  nonblank_lines (mkBody (pre ++ Parsed f :: post)%list w)
  = (nonblank_lines (mkBody pre w) ++ Parsed f :: nonblank_lines (mkBody post w))%list.
Proof. unfold nonblank_lines; simpl. rewrite filter_app. reflexivity. Qed.

Lemma forallb_blank_parsed (pre post : list line) (f : fragment) :
  forallb is_blank (pre ++ Parsed f :: post)%list = false.
Proof. rewrite forallb_app. simpl. apply andb_false_r. Qed.

Lemma existsb_nonblank (post : list line) (w : string) :
  existsb (fun l => negb (is_blank l)) post = true ->
  exists l ls, nonblank_lines (mkBody post w) = l :: ls.
Proof.
  unfold nonblank_lines; simpl. induction post as [|l post IH]; simpl; [discriminate|].
  destruct (negb (is_blank l)); simpl; eauto.
Qed.

(** ** C2: the audio is the concatenation of the chunks, in line order *)

(** Counterexample to C2: a single fragment with the non-negative code 5
    and the chunk "AA" does not give "AA": the status of the last fragment
    fails the call. *)
Lemma synthesize_last_code_counterexample :
  fst (synthesize cfg_ok req_hi
         (answer (mkBody [Parsed (mkFragment 5 "warn" (Some "AA"))] "")) 0)
  = Resolved (Failure "warn").
Proof. vm_compute. reflexivity. Qed.

(** A response [requestWithRetry] hands back, at whatever attempt, is an
    OK one. *)
Lemma requestWithRetry_go_ok (fuel : nat) : forall net attempt r tr,
  requestWithRetry_go fuel net attempt = (Ok r, tr) -> ok r = true.
Proof.
  induction fuel as [|fuel IH]; intros net attempt r tr; cbn [requestWithRetry_go];
    unfold attempt_once; destruct (net attempt) as [r'|e].
  1,3: destruct (ok r') eqn:Eok;
         [intros H; injection H as <- _; exact Eok
         |destruct (_ && _); [|discriminate]].
  - discriminate.
  - destruct (requestWithRetry_go fuel net (S attempt)) as [res tr'] eqn:E.
    intros H; injection H as -> _. exact (IH net (S attempt) r tr' E).
  - destruct (_ && _); discriminate.
  - destruct (_ && _); [|discriminate].
    destruct (requestWithRetry_go fuel net (S attempt)) as [res tr'] eqn:E.
    intros H; injection H as -> _. exact (IH net (S attempt) r tr' E).
Qed.

(** C2 (amended): when the configured service gets a valid text and
    [requestWithRetry] hands back a response (at the first attempt or after
    retries) whose non-blank lines all parse, with non-negative codes, and
    some line carries a non-empty chunk, then: if the last fragment carries
    the success code 0 or 20000000, [synthesize] resolves to [Success] with
    the plain concatenation of the non-empty chunks in line order; if the
    last fragment carries a positive non-success code, the call fails with
    that fragment's message (or "语音合成失败"), mapped by [handleApiError]. *)
Theorem synthesize_concatenates_chunks (cfg : TTSConfig) (req : TTSRequest)
  (net : network) (now : Z) (r : response) (tr : list event) (fs : list fragment)
  (d : fragment) :
  validateConfig cfg = true -> blank_text (text req) = false ->
  (length (text req) <= 1000)%nat ->
  requestWithRetry net = (Ok r, tr) ->
  nonblank_lines (resp_body r) = map Parsed fs ->
  Forall (fun f => (0 <= code f)%Z) fs ->
  chunks fs <> [] ->
  (success_code (code (last fs d)) = true ->
   synthesize cfg req net now
   = (Resolved (Success (String.concat "" (chunks fs)) now), tr))
  /\ ((0 < code (last fs d))%Z -> success_code (code (last fs d)) = false ->
      synthesize cfg req net now
      = (Resolved (Failure (handleApiError
                              (Error (or_default (message (last fs d)) "语音合成失败")))),
         tr)).
Proof.
  intros Hcfg Hblank Hlen Hnet Hlines Hcodes Hchunks.
  assert (Hfs : fs <> []) by (intros ->; apply Hchunks; reflexivity).
  assert (Hok : ok r = true)
    by exact (requestWithRetry_go_ok retryCount net 1 r tr Hnet).
  unfold synthesize. rewrite Hcfg, Hblank.
  replace ((1000 <? length (text req))%nat) with false
    by (symmetry; apply Nat.ltb_ge; lia).
  simpl. rewrite Hnet. simpl.
  rewrite Hok. simpl. unfold processBody.
  rewrite nonblank_forallb
    by (rewrite Hlines; destruct fs; [congruence|discriminate]).
  rewrite Hlines, collect_parsed by assumption. simpl.
  rewrite (last_frag_last fs None d Hfs).
  destruct (chunks fs) as [|c cs] eqn:Ec; [congruence|].
  split.
  - intros Hlast. rewrite Hlast, andb_false_r.
    destruct (String.eqb (String.concat "" (c :: cs)) "") eqn:Ecat.
    + rewrite <- Ec in Ecat. apply String.eqb_eq in Ecat. exfalso. revert Ecat.
      apply concat_nonempty; [apply chunks_nonempty|rewrite Ec; discriminate].
    + reflexivity.
  - intros Hpos Hlast. rewrite Hlast.
    replace (Z.eqb (code (last fs d)) 0) with false by (symmetry; apply Z.eqb_neq; lia).
    reflexivity.
Qed.

Definition spec_body : body :=
  mkBody [Parsed (mkFragment 0 "ok" (Some "AA"));
          Parsed (mkFragment 0 "ok" (Some "BB"));
          Parsed (mkFragment 0 "done" (Some ""))] "Unexpected non-whitespace character".

(** A server that fails once with status 500, then answers [b]. *)
Definition answer_after_500 (b : body) : network :=
  fun k => if Nat.eqb k 1 then Responded (mkResponse 500 "Internal Server Error" b)
           else Responded (mkResponse 200 "OK" b).

Definition warn_body : body :=
  mkBody [Parsed (mkFragment 0 "ok" (Some "AA"));
          Parsed (mkFragment 3 "partial" (Some "BB"))] "Unexpected non-whitespace character".

Lemma synthesize_concatenates_chunks_witness :
  synthesize cfg_ok req_hi (answer spec_body) 7
  = (Resolved (Success "AABB" 7), [Fetch 1])
  /\ synthesize cfg_ok req_hi (answer_after_500 warn_body) 7
     = (Resolved (Failure (handleApiError (Error "partial"))),
        [Fetch 1; Delay 1000; Fetch 2]).
Proof.
  split.
  - apply (proj1 (synthesize_concatenates_chunks cfg_ok req_hi (answer spec_body) 7
                    (mkResponse 200 "OK" spec_body) [Fetch 1]
                    [mkFragment 0 "ok" (Some "AA"); mkFragment 0 "ok" (Some "BB");
                     mkFragment 0 "done" (Some "")] (mkFragment 0 "" None)
                    eq_refl eq_refl ltac:(vm_compute; lia) eq_refl eq_refl
                    ltac:(repeat constructor; simpl; lia)
                    ltac:(vm_compute; discriminate))).
    reflexivity.
  - apply (proj2 (synthesize_concatenates_chunks cfg_ok req_hi (answer_after_500 warn_body) 7
                    (mkResponse 200 "OK" warn_body) [Fetch 1; Delay 1000; Fetch 2]
                    [mkFragment 0 "ok" (Some "AA"); mkFragment 3 "partial" (Some "BB")]
                    (mkFragment 0 "" None)
                    eq_refl eq_refl ltac:(vm_compute; lia) ltac:(vm_compute; reflexivity)
                    eq_refl ltac:(repeat constructor; simpl; lia)
                    ltac:(vm_compute; discriminate)));
      [vm_compute; reflexivity|reflexivity].
Defined.

(** ** C3: which transport failures are retried *)

(** Counterexample to C3: the message "Invalid token" contains none of
    "401", "403", "invalid", "unauthorized", yet the failure is not retried:
    the check lower-cases the message first. *)
Lemma retry_case_counterexample :
  includes "Invalid token" "401" = false /\ includes "Invalid token" "403" = false
  /\ includes "Invalid token" "invalid" = false
  /\ includes "Invalid token" "unauthorized" = false
  /\ requestWithRetry (fun _ => FetchRejected (Error "Invalid token"))
     = (Throw (Error "Invalid token"), [Fetch 1]).
Proof. vm_compute. repeat split. Qed.

(** C3 (amended): a failed attempt whose message, lower-cased, contains
    "401", "403", "invalid" or "unauthorized" ends the call at once, with no
    further attempt and no delay; any other failure is followed by a delay of
    1000 ms and a new attempt, up to 3 attempts in all. In particular two
    such failures followed by a success give the success after exactly two
    delays. *)
Theorem requestWithRetry_policy (net : network) :
  (forall e, attempt_once net 1 = Throw e ->
     includes (toLowerCase (err_message e)) "401"
     || includes (toLowerCase (err_message e)) "403"
     || includes (toLowerCase (err_message e)) "invalid"
     || includes (toLowerCase (err_message e)) "unauthorized" = true ->
     requestWithRetry net = (Throw e, [Fetch 1]))
  /\ (forall r, attempt_once net 1 = Ok r ->
        requestWithRetry net = (Ok r, [Fetch 1]))
  /\ (forall e1, attempt_once net 1 = Throw e1 -> isConfigurationError e1 = false ->
      (forall r, attempt_once net 2 = Ok r ->
         requestWithRetry net = (Ok r, [Fetch 1; Delay 1000; Fetch 2]))
      /\ (forall e2, attempt_once net 2 = Throw e2 -> isConfigurationError e2 = true ->
         requestWithRetry net = (Throw e2, [Fetch 1; Delay 1000; Fetch 2]))
      /\ (forall e2, attempt_once net 2 = Throw e2 -> isConfigurationError e2 = false ->
          (forall r, attempt_once net 3 = Ok r ->
             requestWithRetry net
             = (Ok r, [Fetch 1; Delay 1000; Fetch 2; Delay 1000; Fetch 3]))
          /\ (forall e3, attempt_once net 3 = Throw e3 ->
             requestWithRetry net
             = (Throw e3, [Fetch 1; Delay 1000; Fetch 2; Delay 1000; Fetch 3])))).
Proof.
  unfold requestWithRetry, retryCount.
  repeat split; intros; cbn [requestWithRetry_go];
    repeat match goal with
           | H : attempt_once net _ = _ |- _ => rewrite H; clear H
           end;
    repeat match goal with
           | H : isConfigurationError _ = _ |- _ => rewrite H; clear H
           end;
    try reflexivity.
  match goal with
  | H : _ = true |- _ => unfold isConfigurationError; rewrite H; reflexivity
  end.
Qed.

Definition flaky_server : network :=
  fun n => match n with
           | 1%nat | 2%nat => Responded (mkResponse 500 "Internal Server Error" spec_body)
           | _ => Responded (mkResponse 200 "OK" spec_body)
           end.

Lemma requestWithRetry_policy_witness :
  requestWithRetry flaky_server
  = (Ok (mkResponse 200 "OK" spec_body),
     [Fetch 1; Delay 1000; Fetch 2; Delay 1000; Fetch 3]).
Proof.
  destruct (requestWithRetry_policy flaky_server) as [_ [_ H]].
  destruct (H (Error "HTTP 500: Internal Server Error") eq_refl eq_refl)
    as [_ [_ H2]].
  destruct (H2 (Error "HTTP 500: Internal Server Error") eq_refl eq_refl) as [H3 _].
  apply H3. reflexivity.
Defined.

(** ** C5: negative codes are fatal, other codes are tolerated *)

Definition two_line_body : body :=
  mkBody [Parsed (mkFragment 0 "ok" (Some "AA"));
          Parsed (mkFragment 3 "partial" (Some "BB"))] "Unexpected non-whitespace character".

(** Counterexample to C5: a fragment with the non-negative, non-success code
    3 makes the call fail when it is the last one. *)
Lemma assembly_last_positive_counterexample :
  fst (synthesize cfg_ok req_hi (answer two_line_body) 0) = Resolved (Failure "partial").
Proof. vm_compute. reflexivity. Qed.

Lemma collect_final_irrelevant (l : line) (ls : list line) (i : nat)
  (parts : list string) (fa fb : option fragment) :
  collect i (l :: ls) parts fa = collect i (l :: ls) parts fb.
Proof. reflexivity. Qed.

(** C5 (amended): (1) after lines that parse with non-negative codes, a
    fragment with a negative code makes the assembly fail at once, whatever
    follows, with an error naming its line and carrying its code and message
    (the caller receives [handleApiError] of it); (2) the non-negative code
    of a fragment followed by another non-blank line has no effect: the
    outcome is the one with code 0; (3) a positive code other than 20000000
    on the last fragment makes the assembly fail. *)
Theorem assembly_status_codes :
  (forall (b : body) (now : Z) (pre : list fragment) (f : fragment) (post : list line),
     Forall (fun g => (0 <= code g)%Z) pre -> (code f < 0)%Z ->
     nonblank_lines b = (map Parsed pre ++ Parsed f :: post)%list ->
     processBody b now
     = Throw (Error ("第" ++ string_of_nat (S (length pre)) ++ "行JSON解析失败: "
                     ++ api_error_message f)))
  /\ (forall (pre post : list line) (f : fragment) (w : string) (now : Z),
     (0 <= code f)%Z -> existsb (fun l => negb (is_blank l)) post = true ->
     processBody (mkBody (pre ++ Parsed f :: post)%list w) now
     = processBody (mkBody (pre ++ Parsed (mkFragment 0 (message f) (data f)) :: post)%list w) now)
  /\ (forall (b : body) (now : Z) (pre : list line) (f : fragment),
     nonblank_lines b = (pre ++ [Parsed f])%list -> (0 < code f)%Z ->
     code f <> 20000000%Z ->
     exists e, processBody b now = Throw e).
Proof.
  split; [|split].
  - intros b now pre f post Hpre Hneg Hlines. unfold processBody.
    rewrite nonblank_forallb by (rewrite Hlines; destruct pre; discriminate).
    rewrite Hlines, collect_app, collect_parsed by assumption. simpl.
    unfold line_body; simpl.
    replace (success_code (code f)) with false
      by (unfold success_code; symmetry; apply orb_false_iff; split;
          apply Z.eqb_neq; lia).
    replace ((code f <? 0)%Z) with true by (symmetry; apply Z.ltb_lt; lia).
    simpl. rewrite length_map. reflexivity.
  - intros pre post f w now Hc Hpost.
    destruct (existsb_nonblank post w Hpost) as [l [ls Hls]].
    set (f0 := mkFragment 0 (message f) (data f)).
    unfold processBody. simpl body_lines.
    rewrite !forallb_blank_parsed, !nonblank_lines_app, Hls.
    rewrite !collect_app.
    destruct (collect 0 (nonblank_lines (mkBody pre w)) [] None) as [[parts fin]|e];
      [|reflexivity].
    cbn [bind fst snd].
    assert (Hcol : collect (0 + length (nonblank_lines (mkBody pre w)))
                     (Parsed f :: l :: ls) parts fin
                   = collect (0 + length (nonblank_lines (mkBody pre w)))
                       (Parsed f0 :: l :: ls) parts fin).
    { cbn [collect]. rewrite (line_body_nonneg f parts Hc).
      rewrite (line_body_nonneg f0 parts) by (simpl; lia). reflexivity. }
    rewrite Hcol.
    destruct (collect _ (Parsed f0 :: l :: ls) parts fin) as [[parts' fin']|e];
      [|reflexivity].
    cbn [bind]. destruct parts'; [|reflexivity].
    unfold single_object.
    rewrite (whole_parse_many (mkBody (pre ++ Parsed f :: post)%list w)
               (nonblank_lines (mkBody pre w)) ls (Parsed f) l)
      by (rewrite nonblank_lines_app, Hls; reflexivity).
    rewrite (whole_parse_many (mkBody (pre ++ Parsed f0 :: post)%list w)
               (nonblank_lines (mkBody pre w)) ls (Parsed f0) l)
      by (rewrite nonblank_lines_app, Hls; reflexivity).
    reflexivity.
  - intros b now pre f Hlines Hpos H2.
    assert (Hs : success_code (code f) = false)
      by (unfold success_code; apply orb_false_iff; split; apply Z.eqb_neq; lia).
    assert (H0 : Z.eqb (code f) 0 = false) by (apply Z.eqb_neq; lia).
    unfold processBody.
    rewrite nonblank_forallb by (rewrite Hlines; destruct pre; discriminate).
    rewrite Hlines, collect_app.
    destruct (collect 0 pre [] None) as [[parts fin]|e]; [|eexists; reflexivity].
    cbn [bind fst snd collect].
    rewrite (line_body_nonneg f parts) by lia. cbn [catch bind fst snd collect].
    destruct (match data f with
              | Some d => if String.eqb d "" then parts else app parts [d]
              | None => parts
              end) as [|p ps].
    + unfold single_object, whole_parse. rewrite Hlines.
      destruct pre as [|x [|y pre']]; simpl.
      * rewrite Hs. simpl. eexists; reflexivity.
      * eexists; reflexivity.
      * eexists; reflexivity.
    + rewrite H0, Hs. simpl. eexists; reflexivity.
Qed.

Lemma assembly_status_codes_witness :
  processBody (mkBody [Parsed (mkFragment 0 "ok" (Some "AA"));
                       Parsed (mkFragment (-1) "bad voice" None); Unparsable "x"] "") 0
  = Throw (Error ("第" ++ string_of_nat 2 ++ "行JSON解析失败: "
                  ++ api_error_message (mkFragment (-1) "bad voice" None))).
Proof.
  apply (proj1 assembly_status_codes _ 0%Z [mkFragment 0 "ok" (Some "AA")]
           (mkFragment (-1) "bad voice" None) [Unparsable "x"]).
  - repeat constructor; simpl; lia.
  - simpl; lia.
  - reflexivity.
Defined.

(** ** C6, C9: validation before any transport *)

Definition req_blank : TTSRequest := mkRequest [] "zh_female".
Definition req_spaces_1001 : TTSRequest := mkRequest (repeat 32%Z 1001) "zh_female".
Definition req_long_1001 : TTSRequest := mkRequest (repeat 97%Z 1001) "zh_female".

(** Counterexample to C6: a blank text gives the configuration failure when
    the app id is missing, and a text of 1001 spaces gives the empty-text
    failure, not the too-long one. *)
Lemma validation_order_counterexample :
  fst (synthesize cfg_missing req_blank offline 0) <> Resolved (Failure msg_empty_text)
  /\ fst (synthesize cfg_ok req_spaces_1001 offline 0)
     <> Resolved (Failure msg_text_too_long).
Proof. vm_compute. split; intro H; discriminate H. Qed.

(** C6 (amended): on a configured service, a blank text gives the
    empty-text failure, and a non-blank text longer than 1000 code units
    gives the too-long failure; in both cases with no fetch and no delay. *)
Theorem synthesize_validation (cfg : TTSConfig) (req : TTSRequest) (net : network)
  (now : Z) :
  validateConfig cfg = true ->
  (blank_text (text req) = true ->
   synthesize cfg req net now = (Resolved (Failure msg_empty_text), []))
  /\ (blank_text (text req) = false -> (1000 < length (text req))%nat ->
      synthesize cfg req net now = (Resolved (Failure msg_text_too_long), [])).
Proof.
  intros Hcfg. unfold synthesize. rewrite Hcfg. simpl.
  split; intros Hb; rewrite Hb; [reflexivity|].
  intros Hlen. apply Nat.ltb_lt in Hlen. rewrite Hlen. reflexivity.
Qed.

Lemma synthesize_validation_witness :
  synthesize cfg_ok req_long_1001 offline 0
  = (Resolved (Failure msg_text_too_long), []).
Proof.
  apply (proj2 (synthesize_validation cfg_ok req_long_1001 offline 0 eq_refl)).
  - vm_compute. reflexivity.
  - vm_compute. lia.
Defined.

(** C9: while the app id or the access key is missing, [synthesize] gives
    the configuration failure, whatever the text, with no transport. *)
Theorem synthesize_config_first (cfg : TTSConfig) (req : TTSRequest)
  (net : network) (now : Z) :
  appId cfg = "" \/ accessKey cfg = "" ->
  synthesize cfg req net now = (Resolved (Failure msg_not_configured), []).
Proof.
  intros H. unfold synthesize, validateConfig.
  destruct H as [H|H]; rewrite H; simpl;
    [reflexivity|rewrite andb_false_r; reflexivity].
Qed.

Lemma synthesize_config_first_witness :
  synthesize cfg_missing req_spaces_1001 offline 0
  = (Resolved (Failure msg_not_configured), []).
Proof. apply synthesize_config_first. left. reflexivity. Defined.

(** ** C7: the public boundary never rejects *)

(** C7: for every configuration, request, network behaviour and clock,
    the promise [synthesize] returns resolves (to [Success] or [Failure]):
    every error raised after validation is caught and turned into a
    [Failure]. *)
Theorem synthesize_total (cfg : TTSConfig) (req : TTSRequest) (net : network)
  (now : Z) :
  exists r, fst (synthesize cfg req net now) = Resolved r.
Proof.
  unfold synthesize.
  destruct (negb (validateConfig cfg)); [eexists; reflexivity|].
  destruct (blank_text (text req)); [eexists; reflexivity|].
  destruct ((1000 <? length (text req))%nat); [eexists; reflexivity|].
  destruct (requestWithRetry net) as [res tr].
  lazymatch goal with
  | |- context [catch ?m _] => destruct m
  end; eexists; reflexivity.
Qed.

End SynthesisProofs.

(** * Properties of the playback arbiter *)
Section ArbiterProofs.
Import Arbiter.

(** ** Updating one call *)

Lemma nth_error_set_nth_ne {A} (l : list A) : forall n m x,
  n <> m -> nth_error (set_nth n x l) m = nth_error l m.
Proof.
  induction l as [|y l IH]; intros [|n] [|m] x Hne; simpl; auto; congruence.
Qed.

Lemma nth_error_set_nth_eq {A} (l : list A) : forall n x c,
  nth_error l n = Some c -> nth_error (set_nth n x l) n = Some x.
Proof.
  induction l as [|y l IH]; intros [|n] x c H; simpl in *; try discriminate; eauto.
Qed.

Lemma in_set_nth {A} (l : list A) : forall n x y,
  In y (set_nth n x l) -> y = x \/ In y l.
Proof.
  induction l as [|z l IH]; intros [|n] x y H; simpl in *; auto.
  - destruct H; auto.
  - destruct H as [H|H]; auto. destruct (IH n x y H); auto.
Qed.

Lemma filter_set_nth {A} (p : A -> bool) (l : list A) : forall n c x,
  nth_error l n = Some c ->
  (length (filter p (set_nth n x l)) + (if p c then 1 else 0)
   = length (filter p l) + (if p x then 1 else 0))%nat.
Proof.
  induction l as [|y l IH]; intros [|n] c x H; simpl in *; try discriminate.
  - injection H as ->. destruct (p c), (p x); simpl; lia.
  - specialize (IH n c x H). destruct (p y); simpl; lia.
Qed.

Lemma nth_error_snoc {A} (l : list A) (x : A) n c :
  nth_error l n = Some c -> nth_error (l ++ [x])%list n = Some c.
Proof.
  intros H. rewrite nth_error_app1; [assumption|].
  apply nth_error_Some. congruence.
Qed.

(** ** Invariants *)

(** Every queued entry names a call of the queued path that has not
    started, and no call is queued twice. *)
Definition queue_ok (s : sys) : Prop :=
  Forall (fun e => exists c, nth_error (calls s) (snd e) = Some c
                             /\ c_path c = Queued /\ c_state c = Waiting)
         (playQueue s)
  /\ NoDup (map snd (playQueue s)).

(** The drain loop is suspended on one dequeued action exactly when
    [isProcessing] is set. *)
Definition drain_ok (s : sys) : Prop :=
  drained_running s = if isProcessing s then 1%nat else 0%nat.

(** No queued caller's promise is rejected. *)
Definition queued_never_fail (s : sys) : Prop :=
  Forall (fun c => c_path c = Queued -> forall e, c_status c <> Failed e) (calls s).

Definition Inv (s : sys) : Prop := queue_ok s /\ drain_ok s /\ queued_never_fail s.

Inductive reachable : sys -> Prop :=
| reachable_init : reachable init
| reachable_step s i : reachable s -> reachable (step s i).

Lemma reachable_run (evs : list input) : forall s,
  reachable s -> reachable (run s evs).
Proof.
  induction evs as [|i evs IH]; intros s H; simpl; auto.
  apply IH. constructor. assumption.
Qed.

Lemma Inv_init : Inv init.
Proof.
  unfold Inv, queue_ok, drain_ok, queued_never_fail; simpl.
  repeat split; constructor.
Qed.

Lemma Inv_with_current (c : option string) (s : sys) : Inv s -> Inv (with_current c s).
Proof. trivial. Qed.

Lemma Inv_emit (o : obs) (s : sys) : Inv s -> Inv (emit o s).
Proof. trivial. Qed.

Lemma queue_ok_entry (s : sys) (id : string) (h : nat) :
  queue_ok s -> In (id, h) (playQueue s) ->
  exists c, nth_error (calls s) h = Some c /\ c_path c = Queued /\ c_state c = Waiting.
Proof.
  intros [Hf _] Hin. rewrite Forall_forall in Hf. apply (Hf (id, h) Hin).
Qed.

(** One turn of the drain loop, entered with [isProcessing] set and no
    dequeued action running. *)
Lemma Inv_drain_next (s : sys) :
  queue_ok s -> queued_never_fail s -> isProcessing s = true ->
  drained_running s = 0%nat -> Inv (drain_next s).
Proof.
  intros [Hq Hnd] Hnf Hp Hd. unfold drain_next.
  destruct (playQueue s) as [|[id h] q] eqn:Eq.
  - unfold Inv, queue_ok, drain_ok, queued_never_fail; simpl.
    split; [split; rewrite Eq; constructor|split; [exact Hd|exact Hnf]].
  - destruct (negb (truthy (currentPlayingId s))).
    + inversion Hq as [|? ? [c [Hc [Hpath Hst]]] Hq']; subst.
      simpl in Hc, Hnd. inversion Hnd as [|? ? Hnin Hnd']; subst.
      unfold update_call; simpl. rewrite Hc.
      unfold Inv, queue_ok, drain_ok, queued_never_fail; simpl.
      split; [split|split].
      * rewrite Forall_forall in Hq' |- *. intros [id' h'] Hin.
        destruct (Hq' (id', h') Hin) as [c' [Hc' Hc'']]. exists c'. split; [|exact Hc''].
        simpl. rewrite nth_error_set_nth_ne; [exact Hc'|].
        intros ->. apply Hnin. apply (in_map snd _ _ Hin).
      * exact Hnd'.
      * unfold drained_running in *. simpl.
        pose proof (filter_set_nth is_drained_running (calls s) h c (mark_running c) Hc).
        assert (E1 : is_drained_running c = false)
          by (unfold is_drained_running, is_running; rewrite Hst; reflexivity).
        assert (E2 : is_drained_running (mark_running c) = true)
          by (unfold is_drained_running, is_running; simpl; rewrite Hpath; reflexivity).
        rewrite E1, E2 in H. rewrite Hp. lia.
      * unfold queued_never_fail in Hnf. rewrite Forall_forall in Hnf |- *.
        intros y Hy. destruct (in_set_nth _ _ _ _ Hy) as [->|Hy'].
        -- simpl. apply Hnf. eapply nth_error_In; eassumption.
        -- apply Hnf, Hy'.
    + unfold Inv, queue_ok, drain_ok, queued_never_fail; simpl.
      rewrite Eq. repeat split; [exact Hq|exact Hnd|exact Hd|exact Hnf].
Qed.

Lemma Inv_processQueue (s : sys) : Inv s -> Inv (processQueue s).
Proof.
  intros [Hq [Hd Hnf]]. unfold processQueue.
  destruct (isProcessing s) eqn:Ep; [simpl; split; auto|].
  simpl. destruct (match playQueue s with [] => true | _ => false end || _);
    [split; auto|].
  apply Inv_drain_next; auto. unfold drain_ok in Hd. rewrite Ep in Hd. exact Hd.
Qed.

Lemma Inv_stopCurrent (s : sys) : Inv s -> Inv (stopCurrent s).
Proof.
  intros H. unfold stopCurrent.
  destruct (currentPlayingId s); [destruct (truthy _)|]; trivial.
Qed.

Lemma Inv_snoc_call (s : sys) (x : call) :
  Inv s -> is_drained_running x = false ->
  (c_path x = Queued -> forall e, c_status x <> Failed e) ->
  Inv (with_calls (calls s ++ [x])%list s).
Proof.
  intros [[Hq Hnd] [Hd Hnf]] Hx Hxf.
  unfold Inv, queue_ok, drain_ok, queued_never_fail, drained_running in *; simpl.
  split; [split|split].
  - rewrite Forall_forall in Hq |- *. intros e He.
    destruct (Hq e He) as [c [Hc Hc']]. exists c. split; [|exact Hc'].
    apply nth_error_snoc, Hc.
  - exact Hnd.
  - rewrite filter_app, length_app. simpl. rewrite Hx. simpl. lia.
  - apply Forall_app. split; [exact Hnf|]. constructor; [exact Hxf|constructor].
Qed.

Lemma Inv_requestPlay (id : string) (s : sys) : Inv s -> Inv (requestPlay id s).
Proof.
  intros HI. unfold requestPlay.
  destruct (negb (truthy (currentPlayingId s))); [|destruct (is_current id s)].
  - apply Inv_emit. apply (Inv_snoc_call (with_current (Some id) s));
      [apply Inv_with_current, HI|reflexivity|discriminate].
  - apply Inv_emit.
    apply (Inv_snoc_call (with_current (Some id) (stopCurrent s)));
      [apply Inv_with_current, Inv_stopCurrent, HI|reflexivity|discriminate].
  - destruct HI as [[Hq Hnd] [Hd Hnf]].
    unfold Inv, queue_ok, drain_ok, queued_never_fail, drained_running in *; simpl.
    split; [split|split].
    + apply Forall_app. split.
      * rewrite Forall_forall in Hq |- *. intros e He.
        destruct (Hq e He) as [c [Hc Hc']]. exists c. split; [|exact Hc'].
        apply nth_error_snoc, Hc.
      * constructor; [|constructor]. eexists. split.
        -- simpl. rewrite nth_error_app2, Nat.sub_diag by lia. reflexivity.
        -- split; reflexivity.
    + rewrite map_app. apply NoDup_app; [exact Hnd|repeat constructor; auto|].
      intros a Ha Ha'. simpl in Ha'. destruct Ha' as [<-|[]].
      apply in_map_iff in Ha. destruct Ha as [e [He1 He2]].
      rewrite Forall_forall in Hq. destruct (Hq e He2) as [c [Hc _]].
      rewrite He1 in Hc. assert (Hlt : nth_error (calls s) (length (calls s)) <> None)
        by congruence.
      apply nth_error_Some in Hlt. lia.
    + rewrite filter_app, length_app. simpl. lia.
    + apply Forall_app. split; [exact Hnf|]. constructor; [|constructor].
      intros _ e. discriminate.
Qed.

(** Finishing a running call keeps the queue and the failure invariant and
    removes it from the running dequeued actions. *)
Lemma Inv_finish (s : sys) (h : nat) (c : call) (st : call_status) :
  Inv s -> nth_error (calls s) h = Some c -> c_state c = Running ->
  (c_path c = Queued -> forall e, st <> Failed e) ->
  let s2 := update_call h (finish st) s in
  queue_ok s2 /\ queued_never_fail s2 /\ isProcessing s2 = isProcessing s
  /\ (drained_running s2 + (if is_drained_running c then 1 else 0)
      = drained_running s)%nat.
Proof.
  intros [[Hq Hnd] [Hd Hnf]] Hc Hrun Hst s2. subst s2.
  unfold update_call. rewrite Hc.
  unfold queue_ok, queued_never_fail, drained_running in *; simpl.
  split; [split|split; [|split]].
  - rewrite Forall_forall in Hq |- *. intros [id' h'] Hin.
    destruct (Hq (id', h') Hin) as [c' [Hc' [Hp' Hs']]]. exists c'.
    split; [|split; assumption]. simpl in *.
    rewrite nth_error_set_nth_ne; [exact Hc'|]. intros ->. congruence.
  - exact Hnd.
  - rewrite Forall_forall in Hnf |- *. intros y Hy.
    destruct (in_set_nth _ _ _ _ Hy) as [->|Hy']; [exact Hst|apply Hnf, Hy'].
  - reflexivity.
  - pose proof (filter_set_nth is_drained_running (calls s) h c (finish st c) Hc) as H.
    assert (E : is_drained_running (finish st c) = false) by reflexivity.
    rewrite E in H. lia.
Qed.

Lemma Inv_actionSettles (h : nat) (o : option jserr) (s : sys) :
  Inv s -> Inv (actionSettles h o s).
Proof.
  intros HI. unfold actionSettles.
  destruct (nth_error (calls s) h) as [c|] eqn:Hc; [|exact HI].
  destruct (c_state c) eqn:Hrun; try exact HI.
  assert (HI1 : Inv (emit (Settle h) s)) by (apply Inv_emit, HI).
  assert (Hc1 : nth_error (calls (emit (Settle h) s)) h = Some c) by exact Hc.
  destruct (c_path c) eqn:Hpath.
  - apply Inv_processQueue, Inv_with_current.
    destruct (Inv_finish _ h c (match o with None => Done | Some e => Failed e end)
                HI1 Hc1 Hrun ltac:(congruence)) as [Hq [Hnf [Hp Hd]]].
    destruct HI1 as [_ [Hd1 _]].
    split; [exact Hq|split; [|exact Hnf]].
    unfold drain_ok in *. rewrite Hp.
    unfold is_drained_running in Hd. rewrite Hpath, andb_false_r in Hd. lia.
  - destruct (Inv_finish _ h c Done HI1 Hc1 Hrun ltac:(discriminate))
      as [Hq [Hnf [Hp Hd]]].
    destruct HI1 as [_ [Hd1 _]].
    unfold is_drained_running, is_running in Hd. rewrite Hpath, Hrun in Hd.
    simpl in Hd. unfold drain_ok in Hd1.
    destruct (isProcessing (emit (Settle h) s)) eqn:Ep; [|lia].
    apply Inv_drain_next; [exact Hq|exact Hnf|simpl; rewrite Hp; reflexivity|].
    change (drained_running (update_call h (finish Done) (emit (Settle h) s)) = 0%nat).
    lia.
Qed.

Lemma Inv_step (s : sys) (i : input) : Inv s -> Inv (step s i).
Proof.
  intros HI. destruct i as [id|h o| |id|]; simpl.
  - apply Inv_requestPlay, HI.
  - apply Inv_actionSettles, HI.
  - apply Inv_stopCurrent, HI.
  - unfold onPlayEnded. destruct (is_current id s); [|exact HI].
    apply Inv_processQueue, Inv_with_current, HI.
  - destruct HI as [_ [Hd Hnf]].
    split; [split; simpl; constructor|split; assumption].
Qed.

Lemma Inv_reachable (s : sys) : reachable s -> Inv s.
Proof.
  induction 1; [apply Inv_init|apply Inv_step; assumption].
Qed.

Lemma drain_next_other (s : sys) (m : nat) :
  (forall id, ~ In (id, m) (playQueue s)) ->
  nth_error (calls (drain_next s)) m = nth_error (calls s) m.
Proof.
  intros Hm. unfold drain_next.
  destruct (playQueue s) as [|[id h] q] eqn:Eq; [reflexivity|].
  destruct (negb (truthy (currentPlayingId s))); [|reflexivity].
  unfold update_call; simpl. destruct (nth_error (calls s) h); [|reflexivity].
  simpl. apply nth_error_set_nth_ne. intros ->. apply (Hm id). left. reflexivity.
Qed.

Lemma processQueue_other (s : sys) (m : nat) :
  (forall id, ~ In (id, m) (playQueue s)) ->
  nth_error (calls (processQueue s)) m = nth_error (calls s) m.
Proof.
  intros Hm. unfold processQueue.
  destruct (_ || _ || _); [reflexivity|].
  rewrite drain_next_other by exact Hm. reflexivity.
Qed.

Lemma running_not_queued (s : sys) (h : nat) (c : call) :
  queue_ok s -> nth_error (calls s) h = Some c -> c_state c = Running ->
  forall id, ~ In (id, h) (playQueue s).
Proof.
  intros Hq Hc Hrun id Hin. destruct (queue_ok_entry s id h Hq Hin) as [c' [Hc' [_ Hw]]].
  congruence.
Qed.

(** A same-identity retrigger with a non-empty identity emits one stop
    notification for it, then starts the new call's action. *)
Lemma requestPlay_same_id_stops (s : sys) (id : string) :
  currentPlayingId s = Some id -> id <> "" ->
  log (requestPlay id s) = (log s ++ [StopEvent id] ++ [Start (length (calls s)) id])%list
  /\ currentPlayingId (requestPlay id s) = Some id.
Proof.
  intros Hcur Hne.
  unfold requestPlay, is_current, stopCurrent, truthy. rewrite Hcur.
  destruct (String.eqb id "") eqn:E; [apply String.eqb_eq in E; contradiction|].
  rewrite String.eqb_refl. simpl. split; [rewrite <- app_assoc; reflexivity|reflexivity].
Qed.

(** ** C1: one identity recorded, one dequeued action at a time *)

(** Counterexample to C1: retriggering "A" while its first action is still
    running starts a second action; both run at once. *)
Lemma arbiter_retrigger_overlap_counterexample :
  length (running (run init [RequestPlay "A"; RequestPlay "A"])) = 2%nat
  /\ log (run init [RequestPlay "A"; RequestPlay "A"])
     = [Start 0 "A"; StopEvent "A"; Start 1 "A"].
Proof. vm_compute. split; reflexivity. Qed.

(** C1 (amended): [currentPlayingId] holds at most one identity (it is a
    single field), and after any sequence of calls at most one dequeued
    action is running: the drain loop runs queued actions one at a time.
    Actions of the immediate path are not excluded from overlapping. *)
Theorem arbiter_drain_one_at_a_time (evs : list input) :
  (drained_running (run init evs) <= 1)%nat.
Proof.
  destruct (Inv_reachable _ (reachable_run evs init reachable_init)) as [_ [Hd _]].
  unfold drain_ok in Hd. rewrite Hd. destruct (isProcessing _); lia.
Qed.

(** ** C4: immediate failures propagate, queued failures do not *)

(** C4: when the running action of call [h] rejects with [e], the caller's
    promise is rejected with [e] if the call took the immediate path, and
    resolved if it was queued; after any sequence of calls no queued
    caller's promise is rejected. *)
Theorem requestPlay_error_propagation (evs : list input) (h : nat) (c : call)
  (e : jserr) :
  nth_error (calls (run init evs)) h = Some c -> c_state c = Running ->
  (c_path c = Immediate ->
   option_map c_status
     (nth_error (calls (step (run init evs) (ActionSettles h (Some e)))) h)
   = Some (Failed e))
  /\ (c_path c = Queued ->
      option_map c_status
        (nth_error (calls (step (run init evs) (ActionSettles h (Some e)))) h)
      = Some Done)
  /\ Forall (fun c' => c_path c' = Queued -> forall e', c_status c' <> Failed e')
       (calls (run init evs)).
Proof.
  intros Hc Hrun.
  destruct (Inv_reachable _ (reachable_run evs init reachable_init)) as [Hq [_ Hnf]].
  set (s := run init evs) in *.
  assert (Hnq := running_not_queued s h c Hq Hc Hrun).
  split; [|split; [|exact Hnf]]; intros Hpath; simpl; unfold actionSettles;
    rewrite Hc, Hrun, Hpath.
  - unfold update_call. simpl. rewrite Hc.
    rewrite processQueue_other by exact Hnq. simpl.
    rewrite (nth_error_set_nth_eq _ _ _ c Hc). reflexivity.
  - unfold update_call. simpl. rewrite Hc.
    rewrite drain_next_other by exact Hnq. simpl.
    rewrite (nth_error_set_nth_eq _ _ _ c Hc). reflexivity.
Qed.

Lemma requestPlay_error_propagation_witness :
  option_map c_status
    (nth_error (calls (step (run init [RequestPlay "A"; RequestPlay "B"])
                          (ActionSettles 0 (Some (Error "load failed"))))) 0)
  = Some (Failed (Error "load failed")).
Proof.
  apply (proj1 (requestPlay_error_propagation [RequestPlay "A"; RequestPlay "B"] 0
                  (mkCall "A" Immediate Running Pending) (Error "load failed")
                  eq_refl eq_refl)).
  reflexivity.
Defined.

(** ** C8: the same identity retriggers with one stop notification *)

(** C8 at the empty identity: after [requestPlay("", f)] the recorded
    identity is [""], yet [requestPlay("", g)] takes the branch for "nothing
    playing" ([!this.currentPlayingId] holds for [""]): it starts [g] with no
    stop notification. *)
Lemma requestPlay_empty_id_no_stop :
  getCurrentPlayingId (run init [RequestPlay ""]) = Some ""
  /\ isPlaying "" (run init [RequestPlay ""]) = true
  /\ log (run init [RequestPlay ""; RequestPlay ""]) = [Start 0 ""; Start 1 ""].
Proof. vm_compute. repeat split. Qed.

(** ** C10: [clearQueue] touches only the queue *)

(** C10: after [clearQueue] the queue is empty, while the recorded identity,
    the calls and the log of notifications are unchanged. *)
Theorem clearQueue_frame (s : sys) :
  getQueueLength (step s ClearQueue) = 0%nat
  /\ getCurrentPlayingId (step s ClearQueue) = getCurrentPlayingId s
  /\ calls (step s ClearQueue) = calls s
  /\ log (step s ClearQueue) = log s.
Proof. repeat split. Qed.

End ArbiterProofs.

(** * Further properties of the synthesis client *)
Section SynthesisExtras.
Import Synthesis.

(** ** Strings *)

Lemma prefix_app (n a b : string) :
  String.prefix n a = true -> String.prefix n (a ++ b) = true.
Proof.
  revert a. induction n as [|c n IH]; intros [|d a] H; simpl in *; try discriminate.
  - destruct b; reflexivity.
  - reflexivity.
  - destruct (ascii_dec c d); [apply IH, H|discriminate].
Qed.

Lemma includes_cons (c : ascii) (s n : string) :
  includes (String c s) n = if String.prefix n (String c s) then true else includes s n.
Proof. reflexivity. Qed.

Lemma includes_app_l (a b n : string) :
  includes a n = true -> includes (a ++ b) n = true.
Proof.
  induction a as [|c a IH]; intros H.
  - simpl in H. destruct n; [destruct b; reflexivity|discriminate].
  - rewrite includes_cons in H. change (String c a ++ b)%string with (String c (a ++ b)).
    rewrite includes_cons. destruct (String.prefix n (String c a)) eqn:E.
    + pose proof (prefix_app n (String c a) b E) as E'.
      change (String c a ++ b)%string with (String c (a ++ b)) in E'. rewrite E'.
      reflexivity.
    + destruct (String.prefix n (String c (a ++ b))); [reflexivity|]. apply IH, H.
Qed.

Lemma toLowerCase_app (a b : string) :
  toLowerCase (a ++ b) = (toLowerCase a ++ toLowerCase b)%string.
Proof. induction a as [|c a IH]; simpl; [reflexivity|rewrite IH; reflexivity]. Qed.

Lemma prefix_lower (n s : string) :
  String.prefix n s = true -> String.prefix (toLowerCase n) (toLowerCase s) = true.
Proof.
  revert s. induction n as [|c n IH]; intros [|d s] H; simpl in *; try discriminate;
    try reflexivity.
  destruct (ascii_dec c d) as [<-|]; [|discriminate].
  destruct (ascii_dec (lower_ascii c) (lower_ascii c)) as [_|]; [apply IH, H|congruence].
Qed.

(** A needle that lower-casing leaves alone (such as "401") found in a
    text is found in the lower-cased text. *)
Lemma includes_lower (s n : string) :
  toLowerCase n = n -> includes s n = true -> includes (toLowerCase s) n = true.
Proof.
  intros Hn. induction s as [|c s IH]; intros H.
  - simpl in H |- *. exact H.
  - rewrite includes_cons in H. change (toLowerCase (String c s))
      with (String (lower_ascii c) (toLowerCase s)).
    rewrite includes_cons. destruct (String.prefix n (String c s)) eqn:E.
    + apply prefix_lower in E. change (toLowerCase (String c s))
        with (String (lower_ascii c) (toLowerCase s)) in E.
      rewrite Hn in E. rewrite E. reflexivity.
    + destruct (String.prefix n (String (lower_ascii c) (toLowerCase s))); [reflexivity|].
      apply IH, H.
Qed.

Lemma attempt_status (net : network) (k : nat) (r : response) :
  net k = Responded r -> ok r = false ->
  attempt_once net k
  = Throw (Error ("HTTP " ++ string_of_Z (status r) ++ ": " ++ statusText r)).
Proof. intros Hn Hok. unfold attempt_once. rewrite Hn, Hok. reflexivity. Qed.

Lemma attempt_once_ok (net : network) (k : nat) (r : response) :
  attempt_once net k = Ok r -> ok r = true.
Proof.
  unfold attempt_once. destruct (net k) as [r'|e]; [|discriminate].
  destruct (ok r') eqn:E; [|discriminate]. intros H. injection H as <-. exact E.
Qed.

(** [synthesize] past validation: the outcome of [requestWithRetry] and
    the processing of the response. *)
Lemma synthesize_after_validation (cfg : TTSConfig) (req : TTSRequest)
  (net : network) (now : Z) :
  validateConfig cfg = true -> blank_text (text req) = false ->
  (length (text req) <= 1000)%nat ->
  synthesize cfg req net now
  = let '(res, tr) := requestWithRetry net in
    let outcome :=
      catch
        (resp <- res ;;
         if negb (ok resp)
         then Throw (Error ("API请求失败: " ++ string_of_Z (status resp)
                            ++ " " ++ statusText resp))
         else processBody (resp_body resp) now)
        (fun e => Ok (Failure (handleApiError e))) in
    match outcome with
    | Ok v => (Resolved v, tr)
    | Throw e => (Rejected e, tr)
    end.
Proof.
  intros Hcfg Hblank Hlen. unfold synthesize. rewrite Hcfg, Hblank.
  replace ((1000 <? length (text req))%nat) with false
    by (symmetry; apply Nat.ltb_ge; lia).
  reflexivity.
Qed.

(** ** X1: what [requestWithRetry] can do *)

(** X1: whatever the network does, [requestWithRetry] makes one, two or
    three attempts, separated by delays of 1000 ms, and the response it
    returns, if any, is an OK one: the [!response.ok] branch of
    [synthesize] is never taken. *)
Theorem requestWithRetry_outcomes (net : network) :
  (snd (requestWithRetry net) = [Fetch 1]
   \/ snd (requestWithRetry net) = [Fetch 1; Delay 1000; Fetch 2]
   \/ snd (requestWithRetry net) = [Fetch 1; Delay 1000; Fetch 2; Delay 1000; Fetch 3])
  /\ (forall r, fst (requestWithRetry net) = Ok r -> ok r = true).
Proof.
  unfold requestWithRetry, retryCount. cbn [requestWithRetry_go].
  destruct (attempt_once net 1) as [r1|e1] eqn:E1.
  { split; [left; reflexivity|]. intros r H. injection H as <-.
    apply (attempt_once_ok net 1), E1. }
  destruct (isConfigurationError e1); simpl.
  { split; [left; reflexivity|discriminate]. }
  destruct (attempt_once net 2) as [r2|e2] eqn:E2.
  { split; [right; left; reflexivity|]. intros r H. injection H as <-.
    apply (attempt_once_ok net 2), E2. }
  destruct (isConfigurationError e2); simpl.
  { split; [right; left; reflexivity|discriminate]. }
  destruct (attempt_once net 3) as [r3|e3] eqn:E3.
  { split; [right; right; reflexivity|]. intros r H. injection H as <-.
    apply (attempt_once_ok net 3), E3. }
  split; [right; right; reflexivity|discriminate].
Qed.

(** ** X2: an authentication failure is not retried *)

Definition msg_auth : string := "API认证失败，请检查访问密钥配置".

(** X2: on a configured service and a valid text, a first answer with HTTP
    status 401 ends the call after that single request, whatever its status
    text and body: [synthesize] resolves to the authentication failure. *)
Theorem synthesize_unauthorized (cfg : TTSConfig) (req : TTSRequest) (net : network)
  (now : Z) (r : response) :
  validateConfig cfg = true -> blank_text (text req) = false ->
  (length (text req) <= 1000)%nat ->
  net 1%nat = Responded r -> status r = 401%Z ->
  synthesize cfg req net now = (Resolved (Failure msg_auth), [Fetch 1]).
Proof.
  intros Hcfg Hblank Hlen Hnet Hst.
  rewrite synthesize_after_validation by assumption.
  assert (Hok : ok r = false) by (unfold ok; rewrite Hst; reflexivity).
  set (m := ("HTTP 401: " ++ statusText r)%string).
  assert (Ha : attempt_once net 1 = Throw (Error m))
    by (rewrite (attempt_status net 1 r Hnet Hok), Hst; reflexivity).
  assert (Hm : includes m "401" = true) by (apply includes_app_l; reflexivity).
  assert (Hc : isConfigurationError (Error m) = true).
  { unfold isConfigurationError. simpl err_message.
    rewrite (includes_lower m "401" eq_refl Hm). reflexivity. }
  unfold requestWithRetry, retryCount. cbn [requestWithRetry_go].
  rewrite Ha, Hc. simpl.
  unfold handleApiError. simpl err_name. simpl err_message. rewrite Hm. reflexivity.
Qed.

Definition unauthorized_server : network :=
  fun _ => Responded (mkResponse 401 "Unauthorized" (mkBody [] "")).

Lemma synthesize_unauthorized_witness :
  synthesize cfg_ok req_hi unauthorized_server 0 = (Resolved (Failure msg_auth), [Fetch 1]).
Proof.
  apply (synthesize_unauthorized cfg_ok req_hi unauthorized_server 0
           (mkResponse 401 "Unauthorized" (mkBody [] "")));
    try reflexivity. simpl. lia.
Defined.

(** ** X3: rate limiting exhausts the attempts *)

Definition msg_rate_limited : string := "API调用频率过高，请稍后再试".

Definition three_attempts : list event :=
  [Fetch 1; Delay 1000; Fetch 2; Delay 1000; Fetch 3].

(** X3: on a configured service and a valid text, when each of the three
    attempts gets HTTP status 429 (with a status text that does not make the
    message look like a configuration error), [synthesize] makes exactly three
    requests, 1000 ms apart, and resolves to the rate-limit failure. *)
Theorem synthesize_rate_limited (cfg : TTSConfig) (req : TTSRequest) (net : network)
  (now : Z) :
  validateConfig cfg = true -> blank_text (text req) = false ->
  (length (text req) <= 1000)%nat ->
  (forall k, (1 <= k <= 3)%nat ->
     exists r, net k = Responded r /\ status r = 429%Z
               /\ isConfigurationError (Error ("HTTP 429: " ++ statusText r)) = false) ->
  synthesize cfg req net now = (Resolved (Failure msg_rate_limited), three_attempts).
Proof.
  intros Hcfg Hblank Hlen Hnet.
  rewrite synthesize_after_validation by assumption.
  assert (Hatt : forall k, (1 <= k <= 3)%nat ->
            exists t, attempt_once net k = Throw (Error ("HTTP 429: " ++ t))
                      /\ isConfigurationError (Error ("HTTP 429: " ++ t)) = false).
  { intros k Hk. destruct (Hnet k Hk) as [r [Hr [Hs Hc]]]. exists (statusText r).
    split; [|exact Hc].
    assert (Hok : ok r = false) by (unfold ok; rewrite Hs; reflexivity).
    rewrite (attempt_status net k r Hr Hok), Hs. reflexivity. }
  destruct (Hatt 1%nat ltac:(lia)) as [t1 [A1 C1]].
  destruct (Hatt 2%nat ltac:(lia)) as [t2 [A2 C2]].
  destruct (Hatt 3%nat ltac:(lia)) as [t3 [A3 C3]].
  assert (Hm : includes ("HTTP 429: " ++ t3) "429" = true)
    by (apply includes_app_l; reflexivity).
  revert A3 C3 Hm. generalize ("HTTP 429: " ++ t3)%string. intros m A3 C3 Hm.
  unfold requestWithRetry, retryCount. cbn [requestWithRetry_go].
  rewrite A1, C1. simpl. rewrite A2, C2. simpl. rewrite A3. simpl.
  unfold handleApiError. simpl err_name. simpl err_message.
  unfold isConfigurationError in C3. simpl err_message in C3.
  apply orb_false_iff in C3 as [C3 _]. apply orb_false_iff in C3 as [C3 _].
  apply orb_false_iff in C3 as [C401 C403].
  destruct (includes m "401") eqn:E401.
  { rewrite (includes_lower m "401" eq_refl E401) in C401. discriminate. }
  destruct (includes m "403") eqn:E403.
  { rewrite (includes_lower m "403" eq_refl E403) in C403. discriminate. }
  rewrite Hm. reflexivity.
Qed.

Definition busy_server : network :=
  fun _ => Responded (mkResponse 429 "Too Many Requests" (mkBody [] "")).

Lemma synthesize_rate_limited_witness :
  synthesize cfg_ok req_hi busy_server 0
  = (Resolved (Failure msg_rate_limited), three_attempts).
Proof.
  apply synthesize_rate_limited; try reflexivity.
  - simpl. lia.
  - intros k _. exists (mkResponse 429 "Too Many Requests" (mkBody [] "")).
    split; [reflexivity|split; reflexivity].
Defined.

(** ** X4: failed requests exhaust the attempts *)

Definition msg_timeout : string := "请求超时，请检查网络连接".

(** X4: on a configured service and a valid text, when the first two
    requests fail with errors that are not configuration errors and the
    third fails with [e3], [synthesize] makes exactly three requests, 1000 ms
    apart, and resolves to [handleApiError(e3)]; when [e3] is a timeout
    ([AbortError]) that is the timeout failure. *)
Theorem synthesize_requests_fail (cfg : TTSConfig) (req : TTSRequest) (net : network)
  (now : Z) (e1 e2 e3 : jserr) :
  validateConfig cfg = true -> blank_text (text req) = false ->
  (length (text req) <= 1000)%nat ->
  net 1%nat = FetchRejected e1 -> isConfigurationError e1 = false ->
  net 2%nat = FetchRejected e2 -> isConfigurationError e2 = false ->
  net 3%nat = FetchRejected e3 ->
  synthesize cfg req net now = (Resolved (Failure (handleApiError e3)), three_attempts)
  /\ (err_name e3 = "AbortError" ->
      synthesize cfg req net now = (Resolved (Failure msg_timeout), three_attempts)).
Proof.
  intros Hcfg Hblank Hlen H1 C1 H2 C2 H3.
  assert (Hs : synthesize cfg req net now
               = (Resolved (Failure (handleApiError e3)), three_attempts)).
  { rewrite synthesize_after_validation by assumption.
    unfold requestWithRetry, retryCount. cbn [requestWithRetry_go].
    unfold attempt_once at 1. rewrite H1, C1. simpl.
    unfold attempt_once at 1. rewrite H2, C2. simpl.
    unfold attempt_once at 1. rewrite H3. reflexivity. }
  split; [exact Hs|]. intros Hab. rewrite Hs. unfold handleApiError. rewrite Hab.
  reflexivity.
Qed.

Definition timing_out : network :=
  fun _ => FetchRejected (mkJsErr "AbortError" "signal is aborted without reason").

Lemma synthesize_requests_fail_witness :
  synthesize cfg_ok req_hi timing_out 0 = (Resolved (Failure msg_timeout), three_attempts).
Proof.
  apply (proj2 (synthesize_requests_fail cfg_ok req_hi timing_out 0
                  (mkJsErr "AbortError" "signal is aborted without reason")
                  (mkJsErr "AbortError" "signal is aborted without reason")
                  (mkJsErr "AbortError" "signal is aborted without reason")
                  eq_refl eq_refl ltac:(simpl; lia) eq_refl eq_refl eq_refl eq_refl
                  eq_refl)).
  reflexivity.
Defined.

(** ** X5: an empty answer *)

(** X5: on a configured service and a valid text, an OK first answer whose
    body is empty or only blank lines ends the call after that request:
    [synthesize] resolves to the failure "API返回空响应". *)
Theorem synthesize_empty_answer (cfg : TTSConfig) (req : TTSRequest) (net : network)
  (now : Z) (r : response) :
  validateConfig cfg = true -> blank_text (text req) = false ->
  (length (text req) <= 1000)%nat ->
  net 1%nat = Responded r -> ok r = true ->
  forallb is_blank (body_lines (resp_body r)) = true ->
  synthesize cfg req net now = (Resolved (Failure "API返回空响应"), [Fetch 1]).
Proof.
  intros Hcfg Hblank Hlen Hnet Hok Hb.
  rewrite synthesize_after_validation by assumption.
  rewrite (requestWithRetry_first_ok net r Hnet Hok). simpl. rewrite Hok. simpl.
  unfold processBody. rewrite Hb. reflexivity.
Qed.

Lemma synthesize_empty_answer_witness :
  synthesize cfg_ok req_hi (answer (mkBody [Blank; Blank] "")) 0
  = (Resolved (Failure "API返回空响应"), [Fetch 1]).
Proof.
  apply (synthesize_empty_answer cfg_ok req_hi _ 0 (mkResponse 200 "OK" (mkBody [Blank; Blank] "")));
    try reflexivity. simpl. lia.
Defined.

(** ** X6: a single object *)

Definition msg_not_json_prefix : string := "API返回的不是有效的JSON格式: ".

Lemma success_code_nonneg (c : Z) : success_code c = true -> (0 <= c)%Z.
Proof.
  unfold success_code. intros H. apply orb_true_iff in H as [H|H];
    apply Z.eqb_eq in H; lia.
Qed.

(** X6: a body whose only non-blank line is an object with a success code
    (0 or 20000000) gives that object's [data] as the audio when it is a
    non-empty string; when [data] is absent, [null] or empty the call fails
    with the empty-audio message, wrapped as a JSON-format failure. *)
Theorem processBody_single_object (b : body) (now : Z) (f : fragment) :
  nonblank_lines b = [Parsed f] -> success_code (code f) = true ->
  (forall d, data f = Some d -> d <> "" -> processBody b now = Ok (Success d now))
  /\ (data f = None \/ data f = Some "" ->
      processBody b now = Throw (Error (msg_not_json_prefix ++ msg_empty_single))).
Proof.
  intros Hl Hs. pose proof (success_code_nonneg _ Hs) as Hc.
  assert (Hf : forallb is_blank (body_lines b) = false)
    by (apply nonblank_forallb; rewrite Hl; discriminate).
  unfold processBody. rewrite Hf, Hl. cbn [collect]. rewrite (line_body_nonneg f [] Hc).
  cbn [catch bind fst snd collect]. split.
  - intros d Hd Hne. rewrite Hd. apply String.eqb_neq in Hne. rewrite Hne. simpl.
    rewrite Hs, andb_false_r. simpl.
    rewrite Hne. reflexivity.
  - intros Hd. unfold single_object, whole_parse.
    destruct Hd as [Hd|Hd]; rewrite Hd; simpl; rewrite Hl; simpl; rewrite Hs; simpl;
      rewrite Hd; reflexivity.
Qed.

Lemma processBody_single_object_witness :
  processBody (mkBody [Blank; Parsed (mkFragment 20000000 "ok" (Some "QUJD")); Blank] "") 5
  = Ok (Success "QUJD" 5).
Proof.
  apply (proj1 (processBody_single_object
                  (mkBody [Blank; Parsed (mkFragment 20000000 "ok" (Some "QUJD")); Blank] "")
                  5 (mkFragment 20000000 "ok" (Some "QUJD")) eq_refl eq_refl));
    [reflexivity|discriminate].
Defined.

(** ** X7: an unparsable line *)

(** X7: after lines that parse with non-negative codes, a line that does
    not parse makes the assembly fail at once, whatever follows, with an
    error naming its position among the non-blank lines and the parser's
    message. *)
Theorem processBody_unparsable_line (b : body) (now : Z) (pre : list fragment)
  (pe : string) (post : list line) :
  Forall (fun g => (0 <= code g)%Z) pre ->
  nonblank_lines b = (map Parsed pre ++ Unparsable pe :: post)%list ->
  processBody b now
  = Throw (Error ("第" ++ string_of_nat (S (length pre)) ++ "行JSON解析失败: " ++ pe)).
Proof.
  intros Hpre Hl. unfold processBody.
  rewrite nonblank_forallb by (rewrite Hl; destruct pre; discriminate).
  rewrite Hl, collect_app, collect_parsed by assumption. simpl.
  rewrite length_map. reflexivity.
Qed.

Lemma processBody_unparsable_line_witness :
  processBody (mkBody [Parsed (mkFragment 0 "ok" (Some "AA")); Blank; Unparsable "Unexpected token";
                       Parsed (mkFragment 0 "ok" (Some "BB"))] "") 0
  = Throw (Error ("第" ++ string_of_nat 2 ++ "行JSON解析失败: " ++ "Unexpected token")).
Proof.
  apply (processBody_unparsable_line _ 0 [mkFragment 0 "ok" (Some "AA")] "Unexpected token"
           [Parsed (mkFragment 0 "ok" (Some "BB"))]).
  - repeat constructor; simpl; lia.
  - reflexivity.
Defined.

(** ** X8: several lines without audio *)

(** X8: a body of two or more non-blank lines that all parse with
    non-negative codes but carry no non-empty [data] fails: the fallback
    parses the whole text as one object, which fails, and the parser's
    message is reported as a JSON-format failure. *)
Theorem processBody_lines_without_audio (b : body) (now : Z) (fs : list fragment) :
  nonblank_lines b = map Parsed fs -> (2 <= length fs)%nat ->
  Forall (fun f => (0 <= code f)%Z) fs -> chunks fs = [] ->
  processBody b now = Throw (Error (msg_not_json_prefix ++ whole_parse_error b)).
Proof.
  intros Hl Hlen Hc Hch. unfold processBody.
  rewrite nonblank_forallb by (rewrite Hl; destruct fs; [simpl in Hlen; lia|discriminate]).
  rewrite Hl, collect_parsed by assumption. rewrite Hch. simpl.
  unfold single_object, whole_parse. rewrite Hl.
  destruct fs as [|f1 [|f2 fs]]; simpl in Hlen; try lia. reflexivity.
Qed.

Lemma processBody_lines_without_audio_witness :
  processBody (mkBody [Parsed (mkFragment 0 "start" None); Parsed (mkFragment 20000000 "done" (Some ""))]
                 "Unexpected non-whitespace character after JSON") 0
  = Throw (Error (msg_not_json_prefix ++ "Unexpected non-whitespace character after JSON")).
Proof.
  apply (processBody_lines_without_audio
           (mkBody [Parsed (mkFragment 0 "start" None);
                    Parsed (mkFragment 20000000 "done" (Some ""))]
              "Unexpected non-whitespace character after JSON") 0
           [mkFragment 0 "start" None; mkFragment 20000000 "done" (Some "")]);
    try reflexivity; first [simpl; lia | repeat constructor; simpl; lia].
Defined.

End SynthesisExtras.


(** * The TTS configuration and the prompt loader *)

Section LoaderExtras.
Import PromptLoader.

(** ** The TTS service configuration *)

(** X9: for a service built by the constructor, [isConfigured] and
    [validateConfig] agree (the API URL falls back to a non-empty default),
    and both hold exactly when [VITE_TTS_APP_ID] and [VITE_TTS_ACCESS_KEY]
    are set to non-empty strings. *)
Theorem tts_configured_iff_keys (env : TTSSetup.tts_env) :
  TTSSetup.isConfigured (TTSSetup.loadConfig env)
  = Synthesis.validateConfig (TTSSetup.loadConfig env)
  /\ (Synthesis.validateConfig (TTSSetup.loadConfig env) = true <->
      exists a k, TTSSetup.VITE_TTS_APP_ID env = Some a /\ a <> ""
                  /\ TTSSetup.VITE_TTS_ACCESS_KEY env = Some k /\ k <> "").
Proof.
  destruct env as [app key url res].
  unfold TTSSetup.isConfigured, Synthesis.validateConfig, TTSSetup.loadConfig,
    TTSSetup.env_or, or_default; simpl.
  split.
  - destruct url as [u|]; [destruct (String.eqb u "") eqn:Eu|]; simpl;
      rewrite ?Eu, ?andb_true_r; reflexivity.
  - split.
    + intros H. apply andb_true_iff in H as [Ha Hk].
      destruct app as [a|]; [|discriminate]. destruct key as [k|]; [|discriminate].
      destruct (String.eqb a "") eqn:Ea; [discriminate|].
      destruct (String.eqb k "") eqn:Ek; [discriminate|].
      exists a, k. apply String.eqb_neq in Ea, Ek. repeat split; assumption.
    + intros (a & k & -> & Ha & -> & Hk).
      apply String.eqb_neq in Ha, Hk. rewrite Ha, Hk. simpl. rewrite Ha, Hk. reflexivity.
Qed.

(** ** Searching and cutting *)

Definition infix (x s : list Z) : Prop := exists a b, s = (a ++ x ++ b)%list.

Lemma infix_trans (x y z : list Z) : infix x y -> infix y z -> infix x z.
Proof.
  intros (a & b & ->) (c & d & ->). exists (c ++ a)%list, (b ++ d)%list.
  rewrite <- !app_assoc. reflexivity.
Qed.

Lemma starts_with_spec (p s : list Z) :
  starts_with p s = true <-> exists r, s = (p ++ r)%list.
Proof.
  revert s; induction p as [|a p IH]; intros [|b s]; simpl.
  - split; [exists []; reflexivity|reflexivity].
  - split; [exists (b :: s); reflexivity|reflexivity].
  - split; [discriminate|intros [r Hr]; discriminate].
  - rewrite andb_true_iff, Z.eqb_eq, IH. split.
    + intros [-> [r ->]]. exists r. reflexivity.
    + intros [r Hr]. injection Hr as -> ->. split; [reflexivity|exists r; reflexivity].
Qed.

Lemma skipn_length_app (a b : list Z) : skipn (length a) (a ++ b) = b.
Proof. induction a as [|x a IH]; [reflexivity|exact IH]. Qed.

Lemma find_from_some (n s : list Z) (k j : nat) :
  find_from n s k = Some j ->
  (k <= j /\ j - k <= length s /\ starts_with n (skipn (j - k) s) = true /\
   forall i, i < j - k -> starts_with n (skipn i s) = false)%nat.
Proof.
  revert k; induction s as [|c s IH]; intros k H; simpl in H.
  - destruct (starts_with n []) eqn:E; [|discriminate]. injection H as <-.
    rewrite Nat.sub_diag. split; [lia|split; [simpl; lia|split; [exact E|intros i Hi; lia]]].
  - destruct (starts_with n (c :: s)) eqn:E.
    + injection H as <-. rewrite Nat.sub_diag.
      split; [lia|split; [simpl; lia|split; [exact E|intros i Hi; lia]]].
    + apply IH in H as (H1 & H2 & H3 & H4).
      replace (j - k)%nat with (S (j - S k)) by lia.
      split; [lia|split; [simpl; lia|split; [exact H3|]]].
      intros [|i] Hi; [exact E|]. apply H4. lia.
Qed.

Lemma find_from_none (n s : list Z) (k : nat) :
  find_from n s k = None -> forall i, starts_with n (skipn i s) = false.
Proof.
  revert k; induction s as [|c s IH]; intros k H i; simpl in H.
  - destruct (starts_with n []) eqn:E; [discriminate|]. destruct i; exact E.
  - destruct (starts_with n (c :: s)) eqn:E; [discriminate|].
    destruct i; [exact E|]. exact (IH _ H i).
Qed.

Lemma substring_range (s : list Z) (k j : nat) :
  (k <= j <= length s)%nat ->
  substring s (Z.of_nat k) (Z.of_nat j) = firstn (j - k) (skipn k s).
Proof.
  intros H. unfold substring.
  assert (E1 : Z.max 0 (Z.min (Z.of_nat k) (Z.of_nat (length s))) = Z.of_nat k) by lia.
  assert (E2 : Z.max 0 (Z.min (Z.of_nat j) (Z.of_nat (length s))) = Z.of_nat j) by lia.
  rewrite E1, E2, Z.min_l, Z.max_r by lia. rewrite !Nat2Z.id. reflexivity.
Qed.

(** The section [parseMarkdown] cuts for a mode is its heading followed by
    text in which ['## '] does not occur. *)
Lemma mode_section_shape (content marker sec : list Z) :
  mode_section content marker = Some sec ->
  exists T, sec = (marker ++ T)%list /\ ~ infix heading T.
Proof.
  unfold mode_section, indexOf.
  replace (Z.to_nat (Z.max 0 (Z.min 0 (Z.of_nat (length content))))) with 0%nat by lia.
  change (skipn 0 content) with content.
  destruct (find_from marker content 0) as [k|] eqn:F; [|discriminate].
  destruct (Z.eqb_spec (Z.of_nat k) (-1)) as [|_]; [lia|].
  apply find_from_some in F as (_ & Hk & Hs & _). rewrite Nat.sub_0_r in Hk, Hs.
  apply starts_with_spec in Hs as [r Hs].
  assert (Hlen : length content = (k + length marker + length r)%nat).
  { pose proof (length_skipn k content) as L. rewrite Hs, length_app in L. lia. }
  replace (Z.to_nat (Z.max 0 (Z.min (Z.of_nat k + Z.of_nat (length marker))
                                    (Z.of_nat (length content)))))
    with (k + length marker)%nat by lia.
  assert (Hr : skipn (k + length marker) content = r).
  { rewrite Nat.add_comm, <- skipn_skipn, Hs. apply skipn_length_app. }
  rewrite Hr.
  destruct (find_from heading r (k + length marker)) as [j|] eqn:G.
  - destruct (Z.eqb_spec (Z.of_nat j) (-1)) as [|_]; [lia|].
    apply find_from_some in G as (G1 & G2 & G3 & G4).
    assert (Hj : (j - (k + length marker) + length heading <= length r)%nat).
    { apply starts_with_spec in G3 as [r' G3].
      pose proof (length_skipn (j - (k + length marker)) r) as L.
      rewrite G3, length_app in L. lia. }
    intros H. injection H as <-.
    rewrite substring_range by (change (length heading) with 3%nat in Hj; lia).
    rewrite Hs. exists (firstn (j - k - length marker) r). split.
    + rewrite firstn_app, firstn_all2 by lia. reflexivity.
    + intros (a & b & HT).
      assert (Hlt : (length a < j - (k + length marker))%nat).
      { pose proof (firstn_length_le r (n := j - k - length marker) ltac:(lia)) as L.
        rewrite HT, !length_app in L. change (length heading) with 3%nat in L. lia. }
      specialize (G4 (length a) Hlt).
      rewrite <- (firstn_skipn (j - k - length marker) r), HT, <- app_assoc,
        skipn_length_app in G4.
      assert (E : starts_with heading (heading ++ b ++ skipn (j - k - length marker) r)
                  = true) by (apply starts_with_spec; eexists; reflexivity).
      rewrite <- app_assoc in G4. congruence.
  - rewrite Z.eqb_refl. intros H. injection H as <-.
    rewrite substring_range by lia. rewrite firstn_all2.
    + rewrite Hs. exists r. split; [reflexivity|].
      intros (a & b & HT).
      pose proof (find_from_none _ _ _ G (length a)) as N.
      rewrite HT, skipn_length_app in N.
      assert (E : starts_with heading (heading ++ b) = true)
        by (apply starts_with_spec; eexists; reflexivity).
      congruence.
    + rewrite length_skipn. lia.
Qed.

(** ** Lines *)

Lemma split_on_nonempty (sep : Z) (s : list Z) : split_on sep s <> [].
Proof.
  destruct s as [|c s]; simpl; [discriminate|].
  destruct (Z.eqb c sep); [discriminate|]. destruct (split_on sep s); discriminate.
Qed.

Lemma split_on_head (sep : Z) (s l : list Z) (ls : list (list Z)) :
  split_on sep s = l :: ls -> exists r, s = (l ++ r)%list.
Proof.
  revert l ls; induction s as [|c s IH]; intros l ls H; simpl in H.
  - injection H as <- _. exists []. reflexivity.
  - destruct (Z.eqb c sep).
    + injection H as <- _. exists (c :: s). reflexivity.
    + destruct (split_on sep s) as [|l' ls'] eqn:E.
      * injection H as <- _. exists s. reflexivity.
      * injection H as <- _. destruct (IH _ _ eq_refl) as [r ->]. exists r. reflexivity.
Qed.

Lemma split_on_infix (sep : Z) (s x : list Z) : In x (split_on sep s) -> infix x s.
Proof.
  induction s as [|c s IH]; simpl; intros H.
  - destruct H as [<-|[]]. exists [], []. reflexivity.
  - destruct (Z.eqb c sep).
    + destruct H as [<-|H]; [exists [], (c :: s); reflexivity|].
      destruct (IH H) as (a & b & ->). exists (c :: a), b. reflexivity.
    + destruct (split_on sep s) as [|l ls] eqn:E.
      * destruct H as [<-|[]]. exists [], s. reflexivity.
      * destruct H as [<-|H].
        -- destruct (split_on_head sep s l ls E) as [r ->]. exists [], r. reflexivity.
        -- assert (Hin : In x (l :: ls)) by (right; exact H).
           destruct (IH Hin) as (a & b & ->). exists (c :: a), b. reflexivity.
Qed.

Lemma split_on_app (sep : Z) (m T : list Z) :
  existsb (Z.eqb sep) m = false ->
  split_on sep (m ++ T) = match split_on sep T with
                          | l :: ls => (m ++ l)%list :: ls
                          | [] => [m]
                          end.
Proof.
  induction m as [|c m IH]; simpl; intros H.
  - destruct (split_on sep T) eqn:E; [exfalso; exact (split_on_nonempty _ _ E)|].
    reflexivity.
  - apply orb_false_iff in H as [H1 H2]. rewrite Z.eqb_sym, H1, (IH H2).
    destruct (split_on sep T); reflexivity.
Qed.

Lemma split_on_sep_cons (sep : Z) (s : list Z) :
  split_on sep (sep :: s) = [] :: split_on sep s.
Proof. simpl. rewrite Z.eqb_refl. reflexivity. Qed.

Lemma split_on_join (sep : Z) (ls : list (list Z)) :
  ls <> [] -> Forall (fun l => existsb (Z.eqb sep) l = false) ls ->
  split_on sep (join [sep] ls) = ls.
Proof.
  intros Hne H. revert Hne. induction H as [|l ls Hl Hls IH]; intros Hne; [congruence|].
  destruct ls as [|l' ls'].
  - simpl. rewrite <- (app_nil_r l) at 1. rewrite (split_on_app sep l [] Hl).
    simpl. rewrite app_nil_r. reflexivity.
  - change (join [sep] (l :: l' :: ls')) with (l ++ sep :: join [sep] (l' :: ls'))%list.
    rewrite (split_on_app sep l _ Hl), split_on_sep_cons, IH by discriminate.
    rewrite app_nil_r. reflexivity.
Qed.

(** ** Trimming *)

Lemma drop_ws_suffix (t : list Z) : exists p, t = (p ++ Synthesis.drop_ws t)%list.
Proof.
  induction t as [|c t [p Hp]]; simpl.
  - exists []. reflexivity.
  - destruct (Synthesis.is_js_ws c).
    + exists (c :: p). simpl. rewrite <- Hp. reflexivity.
    + exists []. reflexivity.
Qed.

Lemma trim_infix (t : list Z) : infix (Synthesis.trim t) t.
Proof.
  unfold Synthesis.trim. destruct (drop_ws_suffix t) as [p Hp].
  destruct (drop_ws_suffix (rev (Synthesis.drop_ws t))) as [q Hq].
  exists p, (rev q). rewrite Hp at 1. f_equal.
  rewrite <- (rev_involutive (Synthesis.drop_ws t)) at 1. rewrite Hq at 1.
  rewrite rev_app_distr. reflexivity.
Qed.

Lemma drop_ws_app_keep (x y : list Z) (c : Z) :
  Synthesis.is_js_ws c = false ->
  exists d, Synthesis.drop_ws (x ++ c :: y) = (d ++ c :: y)%list.
Proof.
  intros Hc. induction x as [|a x [d Hd]]; simpl.
  - rewrite Hc. exists []. reflexivity.
  - destruct (Synthesis.is_js_ws a).
    + exists d. exact Hd.
    + exists (a :: x). reflexivity.
Qed.

(** A line that starts with a mode heading keeps it when trimmed. *)
Lemma trim_heading_line (m l : list Z) (c : Z) (m0 m' : list Z) :
  m = (35 :: 35 :: 32 :: m')%Z -> m = (m0 ++ [c])%list -> Synthesis.is_js_ws c = false ->
  exists d, Synthesis.trim (m ++ l) = (m ++ d)%list.
Proof.
  intros E1 E2 Hc. unfold Synthesis.trim.
  assert (D1 : Synthesis.drop_ws (m ++ l) = (m ++ l)%list) by (rewrite E1; reflexivity).
  assert (Rm : rev m = c :: rev m0) by (rewrite E2, rev_app_distr; reflexivity).
  rewrite D1, rev_app_distr, Rm.
  destruct (drop_ws_app_keep (rev l) (rev m0) c Hc) as [d Hd]. rewrite Hd.
  exists (rev d). rewrite rev_app_distr, <- Rm, rev_involutive. reflexivity.
Qed.

(** ** Code blocks *)

Lemma ecb_loop_skip (sm : list Z) (pre rest result : list (list Z)) :
  Forall (fun l => eqs (Synthesis.trim l) sm = false) pre ->
  ecb_loop sm (pre ++ rest) false false result = ecb_loop sm rest false false result.
Proof.
  induction 1 as [|l pre Hl _ IH]; [reflexivity|].
  simpl. rewrite Hl. simpl. exact IH.
Qed.

Lemma ecb_loop_block (sm : list Z) (body post : list (list Z)) (fl : list Z)
  (result : list (list Z)) :
  Forall (fun l => eqs (Synthesis.trim l) fence = false) body ->
  eqs (Synthesis.trim fl) fence = true ->
  ecb_loop sm (body ++ fl :: post) true true result = (result ++ body)%list.
Proof.
  intros Hb Hf. revert result. induction Hb as [|l body Hl _ IH]; intros result.
  - simpl. rewrite andb_false_r. simpl. rewrite Hf. rewrite app_nil_r. reflexivity.
  - simpl. rewrite andb_false_r. simpl. rewrite Hl, IH, <- app_assoc. reflexivity.
Qed.

Lemma eqs_true (a b : list Z) : eqs a b = true <-> a = b.
Proof. unfold eqs. destruct (list_eq_dec Z.eq_dec a b); split; congruence. Qed.

Lemma eqs_false (a b : list Z) : eqs a b = false <-> a <> b.
Proof. unfold eqs. destruct (list_eq_dec Z.eq_dec a b); split; congruence. Qed.

(** The heading of a mode section and the lines below it up to the next
    ['## ']: none of them trims to [### 系统提示词], so no code block is
    found. *)
Lemma extractCodeBlock_section (m T : list Z) (c : Z) (m0 m' : list Z) :
  m = (35 :: 35 :: 32 :: m')%Z -> m = (m0 ++ [c])%list -> Synthesis.is_js_ws c = false ->
  existsb (Z.eqb newline) m = false -> ~ infix heading T ->
  extractCodeBlock (m ++ T) prompt_marker = [].
Proof.
  intros E1 E2 Hc Hnl HT. unfold extractCodeBlock.
  rewrite <- (app_nil_r (split_on newline (m ++ T))).
  rewrite ecb_loop_skip; [reflexivity|].
  rewrite (split_on_app newline m T Hnl).
  assert (Hfirst : forall l, eqs (Synthesis.trim (m ++ l)) prompt_marker = false).
  { intros l. destruct (trim_heading_line m l c m0 m' E1 E2 Hc) as [d Hd].
    apply eqs_false. rewrite Hd, E1. discriminate. }
  assert (Hrest : forall x, infix x T -> eqs (Synthesis.trim x) prompt_marker = false).
  { intros x Hx. apply eqs_false. intros H. apply HT.
    apply (infix_trans _ x); [|exact Hx].
    apply (infix_trans _ (Synthesis.trim x)); [|apply trim_infix]. rewrite H.
    exists [35%Z], [31995; 32479; 25552; 31034; 35789]%Z. reflexivity. }
  destruct (split_on newline T) as [|l ls] eqn:E.
  - constructor; [|constructor]. pose proof (Hfirst []) as H.
    rewrite app_nil_r in H. exact H.
  - constructor; [apply Hfirst|]. apply Forall_forall. intros x Hx.
    apply Hrest, (split_on_infix newline). rewrite E. right. exact Hx.
Qed.

Lemma parseMode_section (m T : list Z) (c : Z) (m0 m' : list Z) (mid mname : string) :
  m = (35 :: 35 :: 32 :: m')%Z -> m = (m0 ++ [c])%list -> Synthesis.is_js_ws c = false ->
  existsb (Z.eqb newline) m = false -> ~ infix heading T ->
  parseMode (m ++ T) mid mname = None.
Proof.
  intros E1 E2 Hc Hnl HT. unfold parseMode.
  rewrite (extractCodeBlock_section m T c m0 m' E1 E2 Hc Hnl HT). reflexivity.
Qed.

Lemma load_mode_modes (content : list Z) (ps : list (string * PromptConfig))
  (mode : string * string * list Z) :
  In mode modes -> load_mode content ps mode = ps.
Proof.
  intros Hin. destruct mode as [[mid mname] m]. unfold load_mode.
  destruct (mode_section content m) as [sec|] eqn:E; [|reflexivity].
  destruct (mode_section_shape _ _ _ E) as (T & -> & HT).
  assert (Hm : m = (35 :: 35 :: 32 :: skipn 3 m)%Z /\ m = (removelast m ++ [last m 0%Z])%list
               /\ Synthesis.is_js_ws (last m 0%Z) = false
               /\ existsb (Z.eqb newline) m = false).
  { simpl in Hin. destruct Hin as [H|[H|[H|[]]]]; injection H as <- <- <-;
      (split; [reflexivity|split; [reflexivity|split; reflexivity]]). }
  destruct Hm as (E1 & E2 & Hc & Hnl).
  rewrite (parseMode_section m T _ _ _ mid mname E1 E2 Hc Hnl HT). reflexivity.
Qed.

Lemma fold_modes_keep (content : list Z) (ps : list (string * PromptConfig)) :
  fold_left (load_mode content) modes ps = ps.
Proof.
  assert (G : forall ms, incl ms modes -> fold_left (load_mode content) ms ps = ps).
  { induction ms as [|md ms IH]; intros Hincl; simpl; [reflexivity|].
    rewrite load_mode_modes by (apply Hincl; left; reflexivity).
    apply IH. intros x Hx. apply Hincl. right. exact Hx. }
  apply G, incl_refl.
Qed.

Lemma parseMarkdown_fresh_nonempty (tx : fallback_texts) (file : list Z) :
  file <> [] -> parseMarkdown tx file fresh = mkLoader [] true file.
Proof.
  intros Hf. unfold parseMarkdown, fresh. cbn [markdownContent prompts isLoaded].
  assert (E0 : eqs [] [] = true) by reflexivity.
  assert (Ef : eqs file [] = false) by (apply eqs_false; exact Hf).
  rewrite E0. cbv beta iota. rewrite Ef, fold_modes_keep. reflexivity.
Qed.

Lemma getPrompt_fresh_nonempty (tx : fallback_texts) (file : list Z) (mode : string) :
  file <> [] -> getPrompt tx file fresh mode = (mkLoader [] true file, None).
Proof.
  intros Hf. unfold getPrompt. change (init tx file fresh) with (parseMarkdown tx file fresh).
  rewrite (parseMarkdown_fresh_nonempty tx file Hf). reflexivity.
Qed.

(** X10: no prompt is ever read from the markdown file. Each section is cut
    at the first ['## '] after its heading, and the line
    [### 系统提示词] contains ['## '], so [parseMode] never finds a system
    prompt. Whenever the file is non-empty, [init] and [reload] leave the
    loader marked as loaded with no prompt, and [getPrompt] answers [null]
    for each of the modes chat, mutual and mood (the caller then uses its
    own defaults). *)
Theorem markdown_prompts_never_load (tx : fallback_texts) (file : list Z) (st : loader) :
  file <> [] ->
  init tx file fresh = mkLoader [] true file
  /\ reload tx file st = mkLoader [] true file
  /\ (forall m : Chat.EmotionMode,
        getPrompt tx file fresh (Chat.mode_key m) = (mkLoader [] true file, None)).
Proof.
  intros Hf. pose proof (parseMarkdown_fresh_nonempty tx file Hf) as P.
  split; [exact P|split; [exact P|]].
  intros m. exact (getPrompt_fresh_nonempty tx file (Chat.mode_key m) Hf).
Qed.

Definition sample_prompts_md : list Z :=
  [35; 35; 32; 21463; 27668; 21253; 27169; 24335; 32; 40; 99; 104; 97; 116; 41; 10;
   10; 45; 32; 42; 42; 28201; 24230; 21442; 25968; 42; 42; 58; 32; 96; 48; 46; 55;
   96; 10; 10; 35; 35; 35; 32; 31995; 32479; 25552; 31034; 35789; 10; 96; 96; 96;
   10; 20320; 26159; 21463; 27668; 21253; 12290; 10; 96; 96; 96; 10]%Z.

Definition sample_fallback : fallback_texts := mkFallbackTexts [] [] [].

Lemma markdown_prompts_never_load_witness :
  sample_prompts_md <> []
  /\ getPrompt sample_fallback sample_prompts_md fresh (Chat.mode_key Chat.mutual)
     = (mkLoader [] true sample_prompts_md, None).
Proof.
  assert (H : sample_prompts_md <> []) by (unfold sample_prompts_md; discriminate).
  split; [exact H|].
  exact (proj2 (proj2 (markdown_prompts_never_load sample_fallback sample_prompts_md
                         fresh H)) Chat.mutual).
Defined.

(** X11: [extractCodeBlock] returns the lines between the fence that
    directly follows the first line trimming to the marker and the next
    fence line, joined and trimmed. *)
Theorem extractCodeBlock_block (startMarker ml fl fl' : list Z)
  (pre body post : list (list Z)) :
  Forall (fun l => existsb (Z.eqb newline) l = false)
    (pre ++ ml :: fl :: body ++ fl' :: post) ->
  Forall (fun l => Synthesis.trim l <> startMarker) pre ->
  Synthesis.trim ml = startMarker ->
  Synthesis.trim fl = fence ->
  Forall (fun l => Synthesis.trim l <> fence) body ->
  Synthesis.trim fl' = fence ->
  extractCodeBlock (join [newline] (pre ++ ml :: fl :: body ++ fl' :: post)) startMarker
  = Synthesis.trim (join [newline] body).
Proof.
  intros Hnl Hpre Hml Hfl Hbody Hfl'. unfold extractCodeBlock.
  rewrite split_on_join; [|destruct pre; discriminate|exact Hnl].
  rewrite ecb_loop_skip
    by (eapply Forall_impl; [|exact Hpre]; intros l Hl; apply eqs_false; exact Hl).
  simpl. rewrite (proj2 (eqs_true _ _) Hml), (proj2 (eqs_true _ _) Hfl). simpl.
  rewrite ecb_loop_block; [reflexivity| |apply eqs_true; exact Hfl'].
  eapply Forall_impl; [|exact Hbody]. intros l Hl. apply eqs_false. exact Hl.
Qed.

Lemma extractCodeBlock_block_witness :
  extractCodeBlock
    (join [newline] ([units "intro"] ++ units "### X" :: units " ``` "
                       :: [units "  line 1"; units "line 2  "] ++ units "```" :: [units "tail"]))
    (units "### X")
  = Synthesis.trim (join [newline] [units "  line 1"; units "line 2  "]).
Proof.
  apply extractCodeBlock_block;
    first [reflexivity
          | repeat constructor; vm_compute; discriminate
          | repeat constructor].
Defined.

End LoaderExtras.


(** * Configuration values and chat requests *)

Section ChatExtras.
Import PromptLoader.

(** ** [extractConfig] *)

Lemma drop_ws_all_ws (ws t : list Z) :
  forallb Synthesis.is_js_ws ws = true -> Synthesis.drop_ws (ws ++ t) = Synthesis.drop_ws t.
Proof.
  induction ws as [|c ws IH]; simpl; intros H; [reflexivity|].
  apply andb_true_iff in H as [Hc H]. rewrite Hc. apply IH, H.
Qed.

Lemma span_not_tick_app (v post : list Z) :
  existsb (Z.eqb 96) v = false -> span_not_tick (v ++ 96%Z :: post) = (v, 96%Z :: post).
Proof.
  induction v as [|c v IH]; intros H; [reflexivity|].
  cbn [existsb] in H. apply orb_false_iff in H as [Hc H].
  cbn [app span_not_tick]. rewrite Z.eqb_sym, Hc, IH by exact H. reflexivity.
Qed.

Lemma search_cons (name s : list Z) (c : Z) :
  search name (c :: s) = match match_at name (c :: s) with
                         | Some v => Some v
                         | None => search name s
                         end.
Proof. reflexivity. Qed.

Lemma search_skip (name pre s : list Z) :
  existsb (Z.eqb 45) pre = false -> search name (pre ++ s) = search name s.
Proof.
  induction pre as [|c pre IH]; intros H; [reflexivity|].
  cbn [existsb] in H. apply orb_false_iff in H as [Hc H].
  change ((c :: pre) ++ s)%list with (c :: pre ++ s)%list. rewrite search_cons.
  assert (M : match_at name (c :: pre ++ s) = None)
    by (unfold match_at; rewrite Z.eqb_sym, Hc; reflexivity).
  rewrite M. apply IH, H.
Qed.

Lemma match_at_line (name ws1 ws2 v post : list Z) :
  forallb Synthesis.is_js_ws ws1 = true -> forallb Synthesis.is_js_ws ws2 = true ->
  v <> [] -> existsb (Z.eqb 96) v = false ->
  match_at name (45%Z :: ws1 ++ (units "**" ++ name ++ units "**:")
                   ++ ws2 ++ 96%Z :: v ++ 96%Z :: post)%list
  = Some v.
Proof.
  intros H1 H2 Hv Ht. unfold match_at. cbv beta iota zeta. rewrite Z.eqb_refl.
  rewrite (drop_ws_all_ws ws1 _ H1).
  set (lit := (units "**" ++ name ++ units "**:")%list).
  set (r := (ws2 ++ 96%Z :: v ++ 96%Z :: post)%list).
  assert (D : Synthesis.drop_ws (lit ++ r) = (lit ++ r)%list) by reflexivity.
  assert (S1 : starts_with lit (lit ++ r) = true)
    by (apply starts_with_spec; eexists; reflexivity).
  rewrite D, S1, skipn_length_app. subst r.
  rewrite (drop_ws_all_ws ws2 _ H2).
  change (Synthesis.drop_ws (96%Z :: v ++ 96%Z :: post))%Z with (96%Z :: v ++ 96%Z :: post)%list.
  cbv beta iota zeta. rewrite Z.eqb_refl, (span_not_tick_app v post Ht).
  destruct v as [|x v]; [contradiction|]. cbv beta iota zeta. rewrite Z.eqb_refl.
  reflexivity.
Qed.

(** X12: for the two names [parseMode] asks for, 温度参数 and 推理强度,
    [extractConfig] reads the value of a line [- **name**: `value`] (white
    space allowed around the name part), provided the value is non-empty
    without a backquote and no ['-'] comes before the line. *)
Theorem extractConfig_line (name pre ws1 ws2 v post : list Z) :
  name = temperature_key \/ name = effort_key ->
  existsb (Z.eqb 45) pre = false ->
  forallb Synthesis.is_js_ws ws1 = true -> forallb Synthesis.is_js_ws ws2 = true ->
  v <> [] -> existsb (Z.eqb 96) v = false ->
  extractConfig (pre ++ 45%Z :: ws1 ++ (units "**" ++ name ++ units "**:")
                   ++ ws2 ++ 96%Z :: v ++ 96%Z :: post)%list name
  = v.
Proof.
  intros _ Hpre H1 H2 Hv Ht. unfold extractConfig. rewrite (search_skip _ _ _ Hpre).
  rewrite search_cons.
  rewrite (match_at_line name ws1 ws2 v post H1 H2 Hv Ht). reflexivity.
Qed.

Lemma extractConfig_line_witness :
  extractConfig ((units "mode" ++ [10%Z]) ++ 45%Z :: [32%Z]
                   ++ (units "**" ++ temperature_key ++ units "**:")
                   ++ [32%Z] ++ 96%Z :: units "0.8" ++ 96%Z :: [10%Z])%list temperature_key
  = units "0.8".
Proof.
  apply (extractConfig_line temperature_key (units "mode" ++ [10%Z]) [32%Z] [32%Z]
           (units "0.8") [10%Z]);
    [left; reflexivity|reflexivity|reflexivity|reflexivity|discriminate|reflexivity].
Defined.

(** ** [DoubaoApiService.sendMessage] *)

Import Chat.











End ChatExtras.


(** * More of the playback arbiter *)

Section ArbiterExtras.
Import Arbiter.

(** ** Record updates *)

Lemma length_set_nth {A} (l : list A) : forall n x, length (set_nth n x l) = length l.
Proof. induction l as [|y l IH]; intros [|n] x; simpl; auto. Qed.

Lemma update_call_fields (h : nat) (f : call -> call) (s : sys) :
  currentPlayingId (update_call h f s) = currentPlayingId s
  /\ playQueue (update_call h f s) = playQueue s
  /\ isProcessing (update_call h f s) = isProcessing s
  /\ log (update_call h f s) = log s
  /\ length (calls (update_call h f s)) = length (calls s).
Proof.
  unfold update_call. destruct (nth_error (calls s) h); simpl;
    (split; [|split; [|split; [|split]]]); try reflexivity. apply length_set_nth.
Qed.

Lemma update_call_other (h k : nat) (f : call -> call) (s : sys) :
  k <> h -> nth_error (calls (update_call h f s)) k = nth_error (calls s) k.
Proof.
  intros Hk. unfold update_call. destruct (nth_error (calls s) h); simpl; [|reflexivity].
  apply nth_error_set_nth_ne. congruence.
Qed.

Lemma update_call_path (h k : nat) (f : call -> call) (s : sys) :
  (forall c, c_path (f c) = c_path c) ->
  option_map c_path (nth_error (calls (update_call h f s)) k)
  = option_map c_path (nth_error (calls s) k).
Proof.
  intros Hf. destruct (Nat.eq_dec k h) as [->|Hk];
    [|rewrite update_call_other by exact Hk; reflexivity].
  unfold update_call. destruct (nth_error (calls s) h) as [c|] eqn:E;
    [|simpl; rewrite ?E; reflexivity].
  simpl. rewrite (nth_error_set_nth_eq _ _ _ c E). simpl. rewrite Hf, ?E. reflexivity.
Qed.

Lemma run_app (s : sys) (a b : list input) : run s (a ++ b) = run (run s a) b.
Proof. unfold run. apply fold_left_app. Qed.

(** ** Promises settle exactly when their action has finished *)

Definition status_ok (s : sys) : Prop :=
  Forall (fun c => c_status c = Pending <-> c_state c <> Finished) (calls s).

Lemma status_update_call (h : nat) (f : call -> call) (s : sys) :
  status_ok s ->
  (forall c, nth_error (calls s) h = Some c ->
             (c_status (f c) = Pending <-> c_state (f c) <> Finished)) ->
  status_ok (update_call h f s).
Proof.
  intros Hs Hf. unfold status_ok, update_call in *.
  destruct (nth_error (calls s) h) as [c|] eqn:E; [|exact Hs].
  simpl. rewrite Forall_forall in Hs |- *. intros y Hy.
  destruct (in_set_nth _ _ _ _ Hy) as [->|Hy']; [apply Hf; reflexivity|apply Hs, Hy'].
Qed.

Lemma status_snoc (s : sys) (x : call) :
  status_ok s -> (c_status x = Pending <-> c_state x <> Finished) ->
  status_ok (with_calls (calls s ++ [x])%list s).
Proof.
  intros Hs Hx. unfold status_ok in *. simpl. apply Forall_app.
  split; [exact Hs|constructor; [exact Hx|constructor]].
Qed.

Lemma status_drain_next (s : sys) : queue_ok s -> status_ok s -> status_ok (drain_next s).
Proof.
  intros [Hq _] Hs. unfold drain_next.
  destruct (playQueue s) as [|[id h] q] eqn:Eq; [exact Hs|].
  destruct (negb _); [|exact Hs].
  apply status_update_call; [exact Hs|]. intros c Hc. simpl in Hc.
  inversion Hq as [|? ? [c' [Hc' [_ Hw]]] _]; subst. simpl in Hc'.
  rewrite Hc in Hc'. injection Hc' as <-.
  unfold status_ok in Hs. rewrite Forall_forall in Hs.
  pose proof (Hs c (nth_error_In _ _ Hc)) as Hst. rewrite Hw in Hst.
  simpl. split; [intros _; discriminate|intros _; apply Hst; discriminate].
Qed.

Lemma status_processQueue (s : sys) : queue_ok s -> status_ok s -> status_ok (processQueue s).
Proof.
  intros Hq Hs. unfold processQueue. destruct (_ || _ || _); [exact Hs|].
  apply status_drain_next; [exact Hq|exact Hs].
Qed.

Lemma status_finish (h : nat) (st : call_status) (s : sys) :
  st <> Pending -> status_ok s -> status_ok (update_call h (finish st) s).
Proof.
  intros Hst Hs. apply status_update_call; [exact Hs|]. intros c _. simpl.
  split; [intros H; contradiction|intros H; exfalso; apply H; reflexivity].
Qed.

Lemma status_step (s : sys) (i : input) : Inv s -> status_ok s -> status_ok (step s i).
Proof.
  intros HI Hs. destruct i as [id|h o| |id|]; simpl.
  - unfold requestPlay.
    assert (Hstop : status_ok (stopCurrent s))
      by (unfold stopCurrent; destruct (currentPlayingId s); [destruct (truthy _)|]; exact Hs).
    destruct (negb _); [|destruct (is_current id s)].
    + apply (status_snoc (with_current (Some id) s)); [exact Hs|].
      simpl. split; [intros _; discriminate|reflexivity].
    + apply (status_snoc (with_current (Some id) (stopCurrent s))); [exact Hstop|].
      simpl. split; [intros _; discriminate|reflexivity].
    + apply (status_snoc (with_queue _ s)); [exact Hs|].
      simpl. split; [intros _; discriminate|reflexivity].
  - unfold actionSettles.
    destruct (nth_error (calls s) h) as [c|] eqn:Hc; [|exact Hs].
    destruct (c_state c) eqn:Hrun; try exact Hs.
    assert (HI1 : Inv (emit (Settle h) s)) by (apply Inv_emit, HI).
    assert (Hc1 : nth_error (calls (emit (Settle h) s)) h = Some c) by exact Hc.
    destruct (c_path c) eqn:Hpath.
    + destruct (Inv_finish _ h c (match o with None => Done | Some e => Failed e end)
                  HI1 Hc1 Hrun ltac:(congruence)) as [Hq _].
      apply status_processQueue; [exact Hq|].
      apply (status_finish h _ (emit (Settle h) s)); [|exact Hs].
      destruct o; discriminate.
    + destruct (Inv_finish _ h c Done HI1 Hc1 Hrun ltac:(discriminate)) as [Hq _].
      apply status_drain_next; [exact Hq|].
      apply (status_finish h Done (emit (Settle h) s)); [|exact Hs].
      discriminate.
  - unfold stopCurrent. destruct (currentPlayingId s); [destruct (truthy _)|]; exact Hs.
  - unfold onPlayEnded. destruct (is_current id s); [|exact Hs].
    apply status_processQueue; [exact (proj1 HI)|exact Hs].
  - exact Hs.
Qed.

Lemma status_reachable (s : sys) : reachable s -> status_ok s.
Proof.
  induction 1 as [|s i Hr IH]; [constructor|].
  apply status_step; [apply Inv_reachable, Hr|exact IH].
Qed.

(** X14: after any sequence of calls, a caller's promise is still pending
    exactly when its action has not finished: waiting and running calls are
    pending, finished ones are settled. *)
Theorem promise_settled_iff_finished (evs : list input) :
  Forall (fun c => c_status c = Pending <-> c_state c <> Finished) (calls (run init evs)).
Proof. exact (status_reachable _ (reachable_run evs init reachable_init)). Qed.


(** ** Queued actions start in the order of their calls *)

(** The handle of a [Start] notification when the call took the queued
    path. *)
Definition started_queued (cs : list call) (o : obs) : list nat :=
  match o with
  | Start h _ =>
      match nth_error cs h with
      | Some c => match c_path c with Queued => [h] | Immediate => [] end
      | None => []
      end
  | _ => []
  end.

(** The queued calls started so far, in the order they started. *)
Definition queued_starts (s : sys) : list nat := flat_map (started_queued (calls s)) (log s).

Definition fifo_ok (s : sys) : Prop :=
  (forall h id, In (Start h id) (log s) -> h < length (calls s))%nat
  /\ StronglySorted lt (queued_starts s ++ map snd (playQueue s)).

Lemma flat_map_started_ext (cs1 cs2 : list call) (l : list obs) :
  (forall h id, In (Start h id) l ->
     option_map c_path (nth_error cs1 h) = option_map c_path (nth_error cs2 h)) ->
  flat_map (started_queued cs1) l = flat_map (started_queued cs2) l.
Proof.
  induction l as [|o l IH]; intros H; [reflexivity|].
  change (flat_map (started_queued cs1) (o :: l))
    with (started_queued cs1 o ++ flat_map (started_queued cs1) l)%list.
  change (flat_map (started_queued cs2) (o :: l))
    with (started_queued cs2 o ++ flat_map (started_queued cs2) l)%list.
  rewrite IH by (intros h id Hin; apply (H h id); right; exact Hin). f_equal.
  destruct o as [id|h id|h]; try reflexivity. unfold started_queued.
  specialize (H h id (or_introl eq_refl)).
  destruct (nth_error cs1 h) as [c1|], (nth_error cs2 h) as [c2|];
    simpl in H; try discriminate; [|reflexivity].
  injection H as H. rewrite H. reflexivity.
Qed.

Lemma in_queued_starts (s : sys) (k : nat) :
  In k (queued_starts s) -> exists id, In (Start k id) (log s).
Proof.
  unfold queued_starts. rewrite in_flat_map. intros [o [Ho Hk]].
  destruct o as [id|h id|h]; simpl in Hk; try contradiction.
  destruct (nth_error (calls s) h) as [c|]; [|contradiction].
  destruct (c_path c); simpl in Hk; [contradiction|].
  destruct Hk as [<-|[]]. exists id. exact Ho.
Qed.

Lemma StronglySorted_snoc (l : list nat) (x : nat) :
  StronglySorted lt l -> Forall (fun y => y < x)%nat l -> StronglySorted lt (l ++ [x]).
Proof.
  induction l as [|a l IH]; intros Hs Hf; simpl.
  - repeat constructor.
  - apply StronglySorted_inv in Hs as [Hs Ha]. inversion Hf as [|? ? Hax Hf']; subst.
    constructor; [apply IH; assumption|]. apply Forall_app.
    split; [exact Ha|constructor; [exact Hax|constructor]].
Qed.

Lemma StronglySorted_app_l (l1 l2 : list nat) :
  StronglySorted lt (l1 ++ l2) -> StronglySorted lt l1.
Proof.
  induction l1 as [|a l1 IH]; intros H; simpl in H; [constructor|].
  apply StronglySorted_inv in H as [H Ha]. constructor; [apply IH, H|].
  apply Forall_app in Ha as [Ha _]. exact Ha.
Qed.

Lemma fifo_emit_other (o : obs) (s : sys) :
  (forall h id, o <> Start h id) -> fifo_ok s -> fifo_ok (emit o s).
Proof.
  intros Ho [Ha Hs]. split.
  - intros h id Hin. simpl in Hin. apply in_app_or in Hin as [Hin|[Hin|[]]];
      [exact (Ha h id Hin)|exfalso; exact (Ho h id Hin)].
  - unfold queued_starts in *. simpl. rewrite flat_map_app.
    destruct o as [id|h id|h]; [| exfalso; apply (Ho h id); reflexivity|];
      simpl; rewrite app_nil_r; exact Hs.
Qed.

Lemma fifo_update_call (h : nat) (f : call -> call) (s : sys) :
  (forall c, c_path (f c) = c_path c) -> fifo_ok s -> fifo_ok (update_call h f s).
Proof.
  intros Hf [Ha Hs]. destruct (update_call_fields h f s) as (_ & Eq & _ & El & Elen).
  split.
  - intros k id Hin. rewrite El in Hin. rewrite Elen. exact (Ha k id Hin).
  - unfold queued_starts. rewrite El, Eq.
    rewrite (flat_map_started_ext (calls (update_call h f s)) (calls s)); [exact Hs|].
    intros k id _. apply update_call_path, Hf.
Qed.

Lemma queued_starts_snoc (s : sys) (x : call) :
  (forall h id, In (Start h id) (log s) -> h < length (calls s))%nat ->
  flat_map (started_queued (calls s ++ [x])) (log s) = queued_starts s.
Proof.
  intros Ha. unfold queued_starts. apply flat_map_started_ext.
  intros h id Hin. rewrite nth_error_app1 by exact (Ha h id Hin). reflexivity.
Qed.

Lemma fifo_play_now (id : string) (s : sys) :
  fifo_ok s ->
  fifo_ok (emit (Start (length (calls s)) id)
             (with_calls (calls s ++ [mkCall id Immediate Running Pending])
                (with_current (Some id) s))).
Proof.
  intros [Ha Hs]. split.
  - intros h id' Hin. simpl in *. rewrite length_app. simpl.
    apply in_app_or in Hin as [Hin|[Hin|[]]]; [specialize (Ha h id' Hin); lia|].
    injection Hin as <- _. lia.
  - unfold queued_starts. cbn [emit with_calls with_current calls log playQueue].
    rewrite flat_map_app, queued_starts_snoc by exact Ha.
    cbn [flat_map started_queued]. rewrite nth_error_app2, Nat.sub_diag by lia.
    cbn. rewrite !app_nil_r. exact Hs.
Qed.

Lemma fifo_stopCurrent (s : sys) : fifo_ok s -> fifo_ok (stopCurrent s).
Proof.
  intros H. unfold stopCurrent. destruct (currentPlayingId s); [destruct (truthy _)|];
    [|exact H|exact H].
  apply (fifo_emit_other (StopEvent s0) s); [discriminate|exact H].
Qed.

Lemma fifo_enqueue (id : string) (s : sys) :
  queue_ok s -> fifo_ok s ->
  fifo_ok (with_calls (calls s ++ [mkCall id Queued Waiting Pending])
             (with_queue (playQueue s ++ [(id, length (calls s))]) s)).
Proof.
  intros [Hq _] [Ha Hs]. split.
  - intros h id' Hin. simpl in *. rewrite length_app. specialize (Ha h id' Hin). simpl. lia.
  - unfold queued_starts. cbn [with_calls with_queue calls log playQueue].
    rewrite queued_starts_snoc by exact Ha.
    rewrite map_app, app_assoc. apply StronglySorted_snoc; [exact Hs|].
    apply Forall_app. split.
    + apply Forall_forall. intros k Hk. destruct (in_queued_starts s k Hk) as [id' Hin].
      exact (Ha k id' Hin).
    + rewrite Forall_forall in Hq |- *. intros k Hk. apply in_map_iff in Hk as [e [<- He]].
      destruct (Hq e He) as [c [Hc _]]. apply nth_error_Some. congruence.
Qed.

Lemma fifo_drain_next (s : sys) : queue_ok s -> fifo_ok s -> fifo_ok (drain_next s).
Proof.
  intros Hq Hf. unfold drain_next.
  destruct (playQueue s) as [|[id h] q] eqn:Eq; [exact Hf|].
  destruct (negb _); [|exact Hf].
  destruct Hf as [Ha Hs].
  destruct Hq as [Hqf _]. rewrite Eq in Hqf.
  inversion Hqf as [|? ? [c [Hc [Hp _]]] _]; subst. simpl in Hc.
  set (s0 := with_current (Some id) (with_queue q s)).
  destruct (update_call_fields h mark_running s0) as (_ & Eq1 & _ & El1 & Elen1).
  assert (Hc1 : nth_error (calls (update_call h mark_running s0)) h = Some (mark_running c)).
  { unfold update_call. change (calls s0) with (calls s). rewrite Hc. simpl.
    apply (nth_error_set_nth_eq _ _ _ c Hc). }
  assert (Hlen : (h < length (calls s))%nat) by (apply nth_error_Some; congruence).
  split.
  - intros k id' Hin. simpl in Hin. rewrite El1 in Hin. simpl. rewrite Elen1.
    apply in_app_or in Hin as [Hin|[Hin|[]]]; [exact (Ha k id' Hin)|].
    injection Hin as <- _. exact Hlen.
  - unfold queued_starts. cbn [emit calls log playQueue]. rewrite El1, Eq1, flat_map_app.
    rewrite (flat_map_started_ext _ (calls s))
      by (intros k id' _; exact (update_call_path h k mark_running s0 (fun _ => eq_refl))).
    cbn [flat_map started_queued]. rewrite Hc1. simpl. rewrite Hp.
    rewrite Eq in Hs. simpl in Hs |- *. rewrite <- app_assoc. exact Hs.
Qed.

Lemma fifo_processQueue (s : sys) : queue_ok s -> fifo_ok s -> fifo_ok (processQueue s).
Proof.
  intros Hq Hf. unfold processQueue. destruct (_ || _ || _); [exact Hf|].
  apply fifo_drain_next; [exact Hq|exact Hf].
Qed.

Lemma fifo_step (s : sys) (i : input) : Inv s -> fifo_ok s -> fifo_ok (step s i).
Proof.
  intros HI Hf. destruct i as [id|h o| |id|]; simpl.
  - unfold requestPlay. destruct (negb _); [|destruct (is_current id s)].
    + apply fifo_play_now, Hf.
    + assert (Hc : calls (stopCurrent s) = calls s)
        by (unfold stopCurrent; destruct (currentPlayingId s); [destruct (truthy _)|]; reflexivity).
      pose proof (fifo_play_now id (stopCurrent s) (fifo_stopCurrent s Hf)) as H.
      rewrite Hc in H |- *. exact H.
    + apply fifo_enqueue; [exact (proj1 HI)|exact Hf].
  - unfold actionSettles.
    destruct (nth_error (calls s) h) as [c|] eqn:Hc; [|exact Hf].
    destruct (c_state c) eqn:Hrun; try exact Hf.
    assert (HI1 : Inv (emit (Settle h) s)) by (apply Inv_emit, HI).
    assert (Hc1 : nth_error (calls (emit (Settle h) s)) h = Some c) by exact Hc.
    assert (Hf1 : fifo_ok (emit (Settle h) s)) by (apply fifo_emit_other; [discriminate|exact Hf]).
    destruct (c_path c) eqn:Hpath.
    + destruct (Inv_finish _ h c (match o with None => Done | Some e => Failed e end)
                  HI1 Hc1 Hrun ltac:(congruence)) as [Hq _].
      apply fifo_processQueue; [exact Hq|].
      apply fifo_update_call; [reflexivity|exact Hf1].
    + destruct (Inv_finish _ h c Done HI1 Hc1 Hrun ltac:(discriminate)) as [Hq _].
      apply fifo_drain_next; [exact Hq|].
      apply fifo_update_call; [reflexivity|exact Hf1].
  - apply fifo_stopCurrent, Hf.
  - unfold onPlayEnded. destruct (is_current id s); [|exact Hf].
    apply fifo_processQueue; [exact (proj1 HI)|exact Hf].
  - destruct Hf as [Ha Hs]. split; [exact Ha|]. simpl.
    rewrite app_nil_r. exact (StronglySorted_app_l _ _ Hs).
Qed.

Lemma fifo_reachable (s : sys) : reachable s -> fifo_ok s.
Proof.
  induction 1 as [|s i Hr IH].
  - split; [intros h id []|constructor].
  - apply fifo_step; [apply Inv_reachable, Hr|exact IH].
Qed.

(** X15: queued actions start in the order of their calls. After any
    sequence of calls, the handles of the queued calls whose action has
    started, in the order the starts happened, followed by the handles still
    in the queue, are strictly increasing. *)
Theorem queued_starts_in_call_order (evs : list input) :
  StronglySorted lt (queued_starts (run init evs) ++ map snd (playQueue (run init evs))).
Proof. exact (proj2 (fifo_reachable _ (reachable_run evs init reachable_init))). Qed.

(** ** Callers dropped by [clearQueue] *)

Lemma drain_next_queue_incl (s : sys) : incl (playQueue (drain_next s)) (playQueue s).
Proof.
  unfold drain_next. destruct (playQueue s) as [|[id h] q] eqn:Eq.
  - simpl. rewrite Eq. apply incl_refl.
  - destruct (negb _).
    + destruct (update_call_fields h mark_running (with_current (Some id) (with_queue q s)))
        as (_ & E & _).
      simpl. rewrite E. simpl. intros e He. right. exact He.
    + simpl. rewrite Eq. apply incl_refl.
Qed.

Lemma processQueue_queue_incl (s : sys) : incl (playQueue (processQueue s)) (playQueue s).
Proof.
  unfold processQueue. destruct (_ || _ || _); [apply incl_refl|].
  apply (drain_next_queue_incl (with_processing true s)).
Qed.

(** A waiting call that is not in the queue is left alone by every step. *)
Lemma waiting_unqueued_step (s : sys) (i : input) (k : nat) (c : call) :
  nth_error (calls s) k = Some c -> c_state c = Waiting ->
  (forall id, ~ In (id, k) (playQueue s)) ->
  nth_error (calls (step s i)) k = Some c /\ (forall id, ~ In (id, k) (playQueue (step s i))).
Proof.
  intros Hk Hw Hnq.
  assert (Hlt : (k < length (calls s))%nat) by (apply nth_error_Some; congruence).
  destruct i as [id|h o| |id|]; simpl.
  - unfold requestPlay.
    assert (Hc : calls (stopCurrent s) = calls s /\ playQueue (stopCurrent s) = playQueue s)
      by (unfold stopCurrent; destruct (currentPlayingId s); [destruct (truthy _)|];
          split; reflexivity).
    destruct (negb _); [|destruct (is_current id s)]; simpl; rewrite ?(proj1 Hc), ?(proj2 Hc).
    + split; [apply nth_error_snoc, Hk|exact Hnq].
    + split; [apply nth_error_snoc, Hk|exact Hnq].
    + split; [apply nth_error_snoc, Hk|].
      intros id' Hin. apply in_app_or in Hin as [Hin|[Hin|[]]]; [exact (Hnq id' Hin)|].
      injection Hin as _ E. lia.
  - unfold actionSettles.
    destruct (nth_error (calls s) h) as [c'|] eqn:Hc; [|split; assumption].
    destruct (c_state c') eqn:Hrun; try (split; assumption).
    assert (Hhk : k <> h) by (intros ->; congruence).
    destruct (update_call_fields h (finish (match o with None => Done | Some e => Failed e end))
                (emit (Settle h) s)) as (_ & Eqa & _).
    destruct (update_call_fields h (finish Done) (emit (Settle h) s)) as (_ & Eqb & _).
    destruct (c_path c').
    + split.
      * rewrite processQueue_other.
        -- simpl. rewrite update_call_other by exact Hhk. exact Hk.
        -- simpl. rewrite Eqa. exact Hnq.
      * intros id' Hin. apply processQueue_queue_incl in Hin. simpl in Hin.
        rewrite Eqa in Hin. exact (Hnq id' Hin).
    + split.
      * rewrite drain_next_other.
        -- simpl. rewrite update_call_other by exact Hhk. exact Hk.
        -- simpl. rewrite Eqb. exact Hnq.
      * intros id' Hin. apply drain_next_queue_incl in Hin. simpl in Hin.
        rewrite Eqb in Hin. exact (Hnq id' Hin).
  - unfold stopCurrent. destruct (currentPlayingId s); [destruct (truthy _)|];
      split; assumption.
  - unfold onPlayEnded. destruct (is_current id s); [|split; assumption]. split.
    + rewrite processQueue_other by exact Hnq. exact Hk.
    + intros id' Hin. apply processQueue_queue_incl in Hin. exact (Hnq id' Hin).
  - split; [exact Hk|intros id' []].
Qed.

Lemma waiting_unqueued_run (evs : list input) : forall (s : sys) (k : nat) (c : call),
  nth_error (calls s) k = Some c -> c_state c = Waiting ->
  (forall id, ~ In (id, k) (playQueue s)) ->
  nth_error (calls (run s evs)) k = Some c.
Proof.
  induction evs as [|i evs IH]; intros s k c Hk Hw Hnq; [exact Hk|].
  destruct (waiting_unqueued_step s i k c Hk Hw Hnq) as [Hk' Hnq'].
  exact (IH (step s i) k c Hk' Hw Hnq').
Qed.

(** X16: [clearQueue] strands the callers it drops. If call [h] is queued
    after a sequence of calls [evs0] and [clearQueue] is called, then
    whatever happens next, its action never starts and the promise its
    caller holds stays pending. *)
Theorem clearQueue_strands_callers (evs0 evs : list input) (id : string) (h : nat) :
  In (id, h) (playQueue (run init evs0)) ->
  exists c, nth_error (calls (run init (evs0 ++ ClearQueue :: evs))) h = Some c
            /\ c_path c = Queued /\ c_state c = Waiting /\ c_status c = Pending.
Proof.
  intros Hin. set (s := run init evs0).
  assert (Hr : reachable s) by exact (reachable_run evs0 init reachable_init).
  destruct (Inv_reachable s Hr) as [Hq _].
  destruct (queue_ok_entry s id h Hq Hin) as [c [Hc [Hp Hw]]].
  assert (Hst : c_status c = Pending).
  { pose proof (status_reachable s Hr) as Hs. unfold status_ok in Hs.
    rewrite Forall_forall in Hs. apply (Hs c (nth_error_In _ _ Hc)). rewrite Hw. discriminate. }
  exists c. split; [|split; [exact Hp|split; [exact Hw|exact Hst]]].
  rewrite run_app. change (run s (ClearQueue :: evs)) with (run (step s ClearQueue) evs).
  exact (waiting_unqueued_run evs (step s ClearQueue) h c Hc Hw (fun id' Hin' => Hin')).
Qed.

Lemma clearQueue_strands_callers_witness :
  exists c, nth_error (calls (run init ([RequestPlay "A"; RequestPlay "B"]
                                        ++ ClearQueue :: [ActionSettles 0 None; RequestPlay "C";
                                                          ActionSettles 2 None]))) 1
            = Some c
            /\ c_path c = Queued /\ c_state c = Waiting /\ c_status c = Pending.
Proof.
  apply (clearQueue_strands_callers [RequestPlay "A"; RequestPlay "B"]
           [ActionSettles 0 None; RequestPlay "C"; ActionSettles 2 None] "B" 1).
  vm_compute. left. reflexivity.
Defined.

(** ** What settling an action does next *)

(** X17: when the action of a dequeued call settles, fulfilled or not, the
    drain loop goes on at once: the next queue entry is dequeued, becomes
    the recorded identity and its action starts. *)
Theorem queued_settle_starts_next (s : sys) (h : nat) (c : call) (o : option jserr)
  (id' : string) (h' : nat) (q : list (string * nat)) :
  nth_error (calls s) h = Some c -> c_state c = Running -> c_path c = Queued ->
  playQueue s = (id', h') :: q ->
  log (actionSettles h o s) = (log s ++ [Settle h; Start h' id'])%list
  /\ currentPlayingId (actionSettles h o s) = Some id'
  /\ playQueue (actionSettles h o s) = q.
Proof.
  intros Hc Hrun Hpath Hq. unfold actionSettles. rewrite Hc, Hrun, Hpath.
  set (s1 := update_call h (finish Done) (emit (Settle h) s)).
  destruct (update_call_fields h (finish Done) (emit (Settle h) s)) as (_ & Eq1 & _ & El1 & _).
  fold s1 in Eq1, El1.
  unfold drain_next. simpl. rewrite Eq1. simpl. rewrite Hq. simpl.
  destruct (update_call_fields h' mark_running (with_current (Some id') (with_queue q
              (with_current None s1)))) as (Ec & Eq2 & _ & El2 & _).
  simpl. rewrite El2, Ec, Eq2. simpl. rewrite El1. simpl.
  rewrite <- app_assoc. split; [|split]; reflexivity.
Qed.

Lemma queued_settle_starts_next_witness :
  log (actionSettles 1 None (run init [RequestPlay "A"; RequestPlay "B"; RequestPlay "C";
                                      OnPlayEnded "A"]))
  = (log (run init [RequestPlay "A"; RequestPlay "B"; RequestPlay "C"; OnPlayEnded "A"])
     ++ [Settle 1; Start 2 "C"])%list
  /\ currentPlayingId (actionSettles 1 None (run init [RequestPlay "A"; RequestPlay "B";
                                                      RequestPlay "C"; OnPlayEnded "A"]))
     = Some "C"
  /\ playQueue (actionSettles 1 None (run init [RequestPlay "A"; RequestPlay "B";
                                               RequestPlay "C"; OnPlayEnded "A"])) = [].
Proof.
  apply (queued_settle_starts_next _ 1 (mkCall "B" Queued Running Pending) None "C" 2 []);
    vm_compute; reflexivity.
Defined.

(** X18: when an action of the immediate path settles with the queue
    empty, the recorded identity is cleared whatever it is at that moment,
    also when it names a later call whose action is still running; the other
    calls are left as they are. *)
Theorem immediate_settle_clears_current (s : sys) (h : nat) (c : call) (o : option jserr) :
  nth_error (calls s) h = Some c -> c_state c = Running -> c_path c = Immediate ->
  playQueue s = [] ->
  currentPlayingId (actionSettles h o s) = None
  /\ (forall k, k <> h -> nth_error (calls (actionSettles h o s)) k = nth_error (calls s) k).
Proof.
  intros Hc Hrun Hpath Hq. unfold actionSettles. rewrite Hc, Hrun, Hpath.
  set (st := match o with None => Done | Some e => Failed e end).
  destruct (update_call_fields h (finish st) (emit (Settle h) s)) as (_ & Eq1 & _).
  change (playQueue (emit (Settle h) s)) with (playQueue s) in Eq1.
  unfold processQueue. simpl. rewrite Eq1, Hq. rewrite orb_true_r. simpl.
  split; [reflexivity|]. intros k Hk. rewrite update_call_other by exact Hk. reflexivity.
Qed.

Lemma immediate_settle_clears_current_witness :
  currentPlayingId (run init [RequestPlay "A"; StopCurrent; RequestPlay "B"]) = Some "B"
  /\ nth_error (calls (run init [RequestPlay "A"; StopCurrent; RequestPlay "B"])) 1
     = Some (mkCall "B" Immediate Running Pending)
  /\ currentPlayingId (actionSettles 0 None (run init [RequestPlay "A"; StopCurrent;
                                                      RequestPlay "B"])) = None
  /\ (forall k, k <> 0%nat ->
       nth_error (calls (actionSettles 0 None (run init [RequestPlay "A"; StopCurrent;
                                                        RequestPlay "B"]))) k
       = nth_error (calls (run init [RequestPlay "A"; StopCurrent; RequestPlay "B"])) k).
Proof.
  split; [reflexivity|split; [reflexivity|]].
  apply (immediate_settle_clears_current _ 0 (mkCall "A" Immediate Running Pending) None);
    vm_compute; reflexivity.
Defined.

End ArbiterExtras.
